(** * Node pool provisioner of the cluster lifecycle manager

    A shallow embedding of [provisioner/node_pools.go]: the stack tag codec,
    orphan detection, the template pipeline, the content-addressed upload of
    user data, the per-pool provisioning and its parallel fan-out in
    [Provision], and the drain-then-delete loop of [Reconcile]. *)

From Stdlib Require Import String Ascii List ZArith Lia Permutation.
From stdpp Require Import base option list gmap strings.

Local Open Scope string_scope.
Local Open Scope list_scope.

Set Default Proof Using "Type".

(** ** Go values: errors and results *)

(** The dynamic types of the [error] values the provisioner can meet:
    [errors.New] and [fmt.Errorf] build a string error, [os.Stat] and
    [ioutil.ReadFile] return a [*os.PathError]. *)
Inductive error : Type :=
| errorString (s : string)
| PathError (Op Path Err : string).

(** [err.Error()] *)
Definition Error (e : error) : string :=
  match e with
  | errorString s => s
  | PathError op pth err => op +:+ " " +:+ pth +:+ ": " +:+ err
  end.

Definition errors_New (s : string) : error := errorString s.
Definition fmt_Errorf (s : string) : error := errorString s.

Definition ENOENT : string := "no such file or directory".

(** A Go result [(T, error)]; a function that returns only [error] is a
    [result unit], [Ok tt] being [nil]. *)
Inductive result (A : Type) : Type :=
| Ok (a : A)
| Err (e : error).
Arguments Ok {A} a.
Arguments Err {A} e.

(** ** Strings *)

(** [strings.Join(elems, sep)] *)
Fixpoint strings_Join (elems : list string) (sep : string) : string :=
  match elems with
  | [] => ""
  | [e] => e
  | e :: rest => e +:+ sep +:+ strings_Join rest sep
  end.

(** [strings.Replace(s, old, new, -1)] for a one-byte [old] and [new]. *)
Fixpoint strings_Replace1 (s : string) (old new : ascii) : string :=
  match s with
  | EmptyString => EmptyString
  | String c rest =>
      String (if Ascii.eqb c old then new else c) (strings_Replace1 rest old new)
  end.

(** [strings.Contains(s, substr)], as a proposition and as a test. *)
Definition Contains (s substr : string) : Prop :=
  ∃ before after, s = before +:+ substr +:+ after.

Fixpoint strings_Contains (s substr : string) : bool :=
  String.prefix substr s ||
  match s with
  | EmptyString => false
  | String _ rest => strings_Contains rest substr
  end.

(** [%q] of a string without characters to escape. *)
Definition strconv_Quote (s : string) : string :=
  let quote := String (ascii_of_nat 34) EmptyString in
  quote +:+ s +:+ quote.

(** ** Data model *)

(** Package [api]: the fields of a node pool and of a cluster that the
    provisioner reads. *)
Module api.
Record NodePool : Type := mkNodePool {
  Name : string;
  Profile : string;
  InstanceType : string;
  DiscountStrategy : string
}.

(** [&api.NodePool{}] *)
Definition zero : NodePool := mkNodePool "" "" "" "".

Definition set_Name (np : NodePool) (v : string) : NodePool :=
  mkNodePool v (Profile np) (InstanceType np) (DiscountStrategy np).
Definition set_Profile (np : NodePool) (v : string) : NodePool :=
  mkNodePool (Name np) v (InstanceType np) (DiscountStrategy np).

Record Cluster : Type := mkCluster {
  ID : string;
  Region : string;
  NodePools : list NodePool
}.
End api.

(** Package [cloudformation] of the AWS SDK: tags and stacks. The SDK keeps
    strings behind pointers; [None] is the nil pointer. *)
Module cloudformation.
Record Tag : Type := mkTag {
  Key : option string;
  Value : option string
}.

Record Stack : Type := mkStack {
  StackName : option string;
  Tags : list Tag
}.
End cloudformation.

(** [aws.String] and [aws.StringValue] *)
Definition aws_String (s : string) : option string := Some s.
Definition aws_StringValue (p : option string) : string := default "" p.

(** ** Constants *)

Definition userDataFileName : string := "userdata.clc.yaml".
Definition stackFileName : string := "stack.yaml".
Definition nodePoolTagKeyLegacy : string := "NodePool".
Definition nodePoolTagKey : string := "kubernetes.io/node-pool".
Definition nodePoolRoleTagKey : string := "kubernetes.io/role/node-pool".
Definition nodePoolProfileTagKey : string := "kubernetes.io/node-pool/profile".

(** Modelled from the spec: the constants [tagNameKubernetesClusterPrefix] and
    [resourceLifecycleOwned] are declared outside [node_pools.go]; the
    ownership tag is [kubernetes.io/cluster/<cluster-id> = owned]. *)
Definition tagNameKubernetesClusterPrefix : string := "kubernetes.io/cluster/".
Definition resourceLifecycleOwned : string := "owned".

(** ** Tag codec *)

(** The tags [provisionNodePool] attaches to the stack of a node pool. *)
Definition nodePoolStackTags (clusterID : string) (nodePool : api.NodePool)
  : list cloudformation.Tag :=
  [ cloudformation.mkTag
      (aws_String (tagNameKubernetesClusterPrefix +:+ clusterID))
      (aws_String resourceLifecycleOwned);
    cloudformation.mkTag
      (aws_String nodePoolRoleTagKey)
      (aws_String "true");
    cloudformation.mkTag
      (aws_String nodePoolTagKey)
      (aws_String (api.Name nodePool));
    cloudformation.mkTag
      (aws_String nodePoolTagKeyLegacy)
      (aws_String (api.Name nodePool));
    cloudformation.mkTag
      (aws_String nodePoolProfileTagKey)
      (aws_String (api.Name nodePool)) ].

(** One iteration of the loop over [stack.Tags]. *)
Definition readTag (nodePool : api.NodePool) (tag : cloudformation.Tag)
  : api.NodePool :=
  let nodePool :=
    if String.eqb (aws_StringValue (cloudformation.Key tag)) nodePoolTagKey
    then api.set_Name nodePool (aws_StringValue (cloudformation.Value tag))
    else nodePool in
  if String.eqb (aws_StringValue (cloudformation.Key tag)) nodePoolProfileTagKey
  then api.set_Profile nodePool (aws_StringValue (cloudformation.Value tag))
  else nodePool.

Definition nodePoolStackToNodePool (stack : cloudformation.Stack) : api.NodePool :=
  foldl readTag api.zero (cloudformation.Tags stack).

(** ** Orphan detection *)

Fixpoint inNodePoolList (nodePool : api.NodePool) (nodePools : list api.NodePool)
  : bool :=
  match nodePools with
  | [] => false
  | np :: rest =>
      if String.eqb (api.Name np) (api.Name nodePool) then true
      else inNodePoolList nodePool rest
  end.

Definition orphanedNodePoolStacks (nodePoolStacks : list cloudformation.Stack)
    (nodePools : list api.NodePool) : list cloudformation.Stack :=
  foldl (λ orphaned stack,
           let np := nodePoolStackToNodePool stack in
           if negb (inNodePoolList np nodePools)
           then orphaned ++ [stack]
           else orphaned)
        [] nodePoolStacks.

(** ** Library functions the provisioner calls *)

(** *** [path.Join]

    [path.Clean] works on the slash-separated elements of a path: empty
    elements and [.] are dropped, [..] removes the element before it (at the
    root it is dropped, in a relative path with nothing to remove it is kept),
    and the empty result is [.]. *)
Fixpoint strings_Split_slash (s : string) : list string :=
  match s with
  | EmptyString => [EmptyString]
  | String c rest =>
      if Ascii.eqb c "/" then EmptyString :: strings_Split_slash rest
      else match strings_Split_slash rest with
           | e :: es => String c e :: es
           | [] => [String c EmptyString]
           end
  end.

Definition cleanElement (rooted : bool) (out : list string) (e : string)
  : list string :=
  if String.eqb e "" then out
  else if String.eqb e "." then out
  else if String.eqb e ".." then
    match out with
    | top :: below =>
        if String.eqb top ".." then e :: out else below
    | [] => if rooted then out else [e]
    end
  else e :: out.

Definition path_Clean (pth : string) : string :=
  match pth with
  | EmptyString => "."
  | String c _ =>
      let rooted := Ascii.eqb c "/" in
      let out := foldl (cleanElement rooted) [] (strings_Split_slash pth) in
      let body := strings_Join (rev out) "/" in
      if rooted then "/" +:+ body
      else if String.eqb body "" then "." else body
  end.

Fixpoint path_Join (elem : list string) : string :=
  match elem with
  | [] => ""
  | e :: rest =>
      if String.eqb e "" then path_Join rest
      else path_Clean (strings_Join elem "/")
  end.

(** *** [hex.EncodeToString] *)
Definition hextable (n : N) : ascii :=
  match n with
  | 0%N => "0" | 1%N => "1" | 2%N => "2" | 3%N => "3" | 4%N => "4"
  | 5%N => "5" | 6%N => "6" | 7%N => "7" | 8%N => "8" | 9%N => "9"
  | 10%N => "a" | 11%N => "b" | 12%N => "c" | 13%N => "d" | 14%N => "e"
  | _ => "f"
  end%char.

Fixpoint hex_EncodeToString (src : string) : string :=
  match src with
  | EmptyString => EmptyString
  | String c rest =>
      let v := N_of_ascii c in
      String (hextable (N.shiftr v 4))
        (String (hextable (N.land v 15)) (hex_EncodeToString rest))
  end.

(** *** [text/template]

    The embedding covers templates made of text, field actions, calls of
    [index] and the control structures [if] and [with], evaluated against
    structs, maps of strings and strings.  Error texts leave out the
    position in the template. *)
Module template.
(** The [missingkey] option. *)
Inductive missingKeyAction : Type := mapInvalid | mapZeroValue | mapError.

(** The nodes of a parse tree that the embedding covers: text, the field
    action [{{.A.B}}], the call [{{index .A.B "key"}}] of the predefined
    function [index] on a field chain and a string constant, and the control
    structures [{{if .A.B}} T1 {{else}} T0 {{end}}] and
    [{{with .A.B}} T1 {{else}} T0 {{end}}] on a field chain.  [range],
    variables, pipelines of several commands and the other functions of the
    language are not covered. *)
#[warnings="-register-all"]
Inductive Node : Type :=
| TextNode (text : string)
| FieldNode (ident : list string)
| IndexNode (ident : list string) (key : string)
| IfNode (pipe : list string) (nodes elseNodes : list Node)
| WithNode (pipe : list string) (nodes elseNodes : list Node).

Record Template : Type := mkTemplate {
  name : string;
  missingKey : missingKeyAction;
  Tree : list Node
}.

(** The data a template is executed on, as reflection sees it. *)
#[warnings="-register-all"]
Inductive Value : Type :=
| Invalid
| String_ (s : string)
| Struct (fields : list (string * Value))
| Map (entries : gmap string string).

Definition New (name : string) : Template := mkTemplate name mapInvalid [].

(** [t.Option(opt)]; an unrecognized option panics, which leaves the
    template as it is here. *)
Definition Option (t : Template) (opt : string) : Template :=
  if String.eqb opt "missingkey=default" then mkTemplate (name t) mapInvalid (Tree t)
  else if String.eqb opt "missingkey=invalid" then mkTemplate (name t) mapInvalid (Tree t)
  else if String.eqb opt "missingkey=zero" then mkTemplate (name t) mapZeroValue (Tree t)
  else if String.eqb opt "missingkey=error" then mkTemplate (name t) mapError (Tree t)
  else t.

Fixpoint lookupField (fields : list (string * Value)) (fieldName : string)
  : option Value :=
  match fields with
  | [] => None
  | (f, v) :: rest =>
      if String.eqb f fieldName then Some v else lookupField rest fieldName
  end.

(** [evalField]: a field of a struct or a key of a map. *)
Definition evalField (mk : missingKeyAction) (receiver : Value)
    (fieldName : string) : result Value :=
  match receiver with
  | Invalid =>
      match mk with
      | mapError =>
          Err (errorString ("nil data; no entry for key " +:+ strconv_Quote fieldName))
      | _ => Ok Invalid
      end
  | Struct fields =>
      match lookupField fields fieldName with
      | Some v => Ok v
      | None => Err (errorString ("can't evaluate field " +:+ fieldName))
      end
  | Map entries =>
      match entries !! fieldName with
      | Some s => Ok (String_ s)
      | None =>
          match mk with
          | mapInvalid => Ok Invalid
          | mapZeroValue => Ok (String_ "")
          | mapError =>
              Err (errorString ("map has no entry for key " +:+ strconv_Quote fieldName))
          end
      end
  | String_ _ => Err (errorString ("can't evaluate field " +:+ fieldName))
  end.

Fixpoint evalFieldChain (mk : missingKeyAction) (receiver : Value)
    (ident : list string) : result Value :=
  match ident with
  | [] => Ok receiver
  | fieldName :: rest =>
      match evalField mk receiver fieldName with
      | Ok v => evalFieldChain mk v rest
      | Err e => Err e
      end
  end.

Section Execute.
(** How [fmt] prints a struct or a map. *)
Variable fmt_Sprint : Value → string.

Definition printValue (v : Value) : string :=
  match v with
  | Invalid => "<no value>"
  | String_ s => s
  | _ => fmt_Sprint v
  end.

(** [index item key] for one key: the element of a map, and the zero value
    of the element type for a key that the map does not hold, whatever the
    option [missingkey] says. *)
Definition index (item : Value) (key : string) : result Value :=
  match item with
  | Invalid => Err (errorString "error calling index: index of untyped nil")
  | Map entries =>
      match entries !! key with
      | Some s => Ok (String_ s)
      | None => Ok (String_ "")
      end
  | _ => Err (errorString "error calling index: can't index item")
  end.

(** [isTrue]: the empty values are the invalid value, the empty string and
    the empty map. *)
Definition isTrue (val : Value) : bool :=
  match val with
  | Invalid => false
  | String_ s => negb (String.eqb s "")
  | Struct _ => true
  | Map entries => negb (bool_decide (entries = ∅))
  end.

(** [walk] on one node, writing to the buffer [out]: an action prints the
    value of its pipeline, [if] and [with] walk one of their two lists and
    leave the other alone. *)
Fixpoint walkNode (mk : missingKeyAction) (dot : Value) (node : Node)
    (out : string) {struct node} : result string :=
  match node with
  | TextNode text => Ok (out +:+ text)
  | FieldNode ident =>
      match evalFieldChain mk dot ident with
      | Ok v => Ok (out +:+ printValue v)
      | Err e => Err e
      end
  | IndexNode ident key =>
      match evalFieldChain mk dot ident with
      | Ok item =>
          match index item key with
          | Ok v => Ok (out +:+ printValue v)
          | Err e => Err e
          end
      | Err e => Err e
      end
  | IfNode pipe nodes elseNodes =>
      match evalFieldChain mk dot pipe with
      | Ok val =>
          (fix walkList (nodes : list Node) (out : string) : result string :=
             match nodes with
             | [] => Ok out
             | node :: rest =>
                 match walkNode mk dot node out with
                 | Ok out' => walkList rest out'
                 | Err e => Err e
                 end
             end) (if isTrue val then nodes else elseNodes) out
      | Err e => Err e
      end
  | WithNode pipe nodes elseNodes =>
      match evalFieldChain mk dot pipe with
      | Ok val =>
          (fix walkList (dot : Value) (nodes : list Node) (out : string)
             : result string :=
             match nodes with
             | [] => Ok out
             | node :: rest =>
                 match walkNode mk dot node out with
                 | Ok out' => walkList dot rest out'
                 | Err e => Err e
                 end
             end) (if isTrue val then val else dot)
                  (if isTrue val then nodes else elseNodes) out
      | Err e => Err e
      end
  end.

(** [walk] over a list of nodes; the first error stops the execution. *)
Fixpoint walk (mk : missingKeyAction) (dot : Value) (nodes : list Node)
    (out : string) : result string :=
  match nodes with
  | [] => Ok out
  | node :: rest =>
      match walkNode mk dot node out with
      | Ok out' => walk mk dot rest out'
      | Err e => Err e
      end
  end.

Definition Execute (t : Template) (data : Value) : result string :=
  walk (missingKey t) data (Tree t) "".
End Execute.
End template.

(** ** Collaborators outside [node_pools.go] *)

Module awsExt.
(** An entry of [awsExt.InstanceInfo()]: the on-demand price per region. *)
Record Info : Type := mkInfo { Pricing : gmap string string }.
End awsExt.

(** Constants, tables and pure helpers the file uses and does not define. *)
Class Platform : Type := {
  discountStrategyNone : string;
  discountStrategySpotMaxPrice : string;
  (** a [switch] with the same constant in two cases does not compile *)
  discountStrategy_distinct : discountStrategyNone ≠ discountStrategySpotMaxPrice;
  InstanceInfo : gmap string awsExt.Info;
  getNonLegacyNodePools : api.Cluster → list api.NodePool;
  clcToIgnition : string → result string;
  (** [fmt.Sprintf(ignitionBaseTemplate, uri)] *)
  ignitionBaseTemplate : string → string;
  sha512_Sum : string → string;
  base64_EncodeToString : string → string;
  (** [Parse] of text/template, from the template's name and text *)
  template_Parse : string → string → result (list template.Node);
  fmt_Sprint : template.Value → string
}.

Record FileInfo : Type := mkFileInfo { IsDir : bool }.

(** The world outside the process, of any type [W]: the file system, S3,
    CloudFormation through the [awsAdapter], and the node pool manager.
    [waitForStack] stands for the wait under the context with the timeout
    [maxWaitTimeout], polling every [waitTime]. *)
Class Cloud (W : Type) : Type := {
  os_Stat : string → W → result FileInfo;
  ioutil_ReadFile : string → W → result string;
  createS3Bucket : string → W → result unit * W;
  s3Uploader_Upload : string → string → string → W → result unit * W;
  applyStack :
    string → string → string → list cloudformation.Tag → bool → W → result unit * W;
  waitForStack : string → W → result unit * W;
  ListStacks : gmap string string → W → result (list cloudformation.Stack) * W;
  DeleteStack : string → W → result unit * W;
  ScalePool : api.NodePool → Z → W → result unit * W
}.

(** The calls that change the world, as the provisioner issues them. *)
Inductive Call : Type :=
| CallCreateS3Bucket (bucket : string)
| CallUpload (bucket key body : string)
| CallApplyStack (stackName template : string) (tags : list cloudformation.Tag)
| CallWaitForStack (stackName : string)
| CallListStacks (tags : gmap string string)
| CallScalePool (nodePool : api.NodePool) (replicas : Z)
| CallDeleteStack (stackName : string).

(** A call with its outcome: [None] when it returned [nil]. *)
Abbreviation Event := (Call * option error)%type.

Definition outcome {A} (r : result A) : option error :=
  match r with Ok _ => None | Err e => Some e end.

Record AWSNodePoolProvisioner : Type := mkProvisioner {
  bucketName : string;
  cfgBaseDir : string;
  Cluster : api.Cluster
}.

(** ** Processes

    The state a run of the provisioner works on. A Go map is a reference:
    the [values] argument of [Provision], the variable every goroutine
    closure captures, the argument of [provisionNodePool] and the [Values]
    field of the template parameters all denote one map object, kept in the
    cell [values]; the map is not nil. [calls] records the calls made so
    far, oldest first. *)
Record St (W : Type) : Type := mkSt {
  values : gmap string string;
  world : W;
  calls : list Event
}.
Arguments mkSt {W} _ _ _.
Arguments values {W} _.
Arguments world {W} _.
Arguments calls {W} _.

(** A process is a tree of atomic actions on the state: one action per
    access to the shared map or to the world. Run alone it is a sequential
    program; a scheduler interleaves the actions of several. *)
Inductive Proc (W A : Type) : Type :=
| Ret (a : A)
| Atomic {B : Type} (act : St W → B * St W) (k : B → Proc W A).
Arguments Ret {W A} a.
Arguments Atomic {W A B} act k.

Fixpoint bind {W A B} (p : Proc W A) (f : A → Proc W B) : Proc W B :=
  match p with
  | Ret a => f a
  | Atomic act k => Atomic act (λ b, bind (k b) f)
  end.

Fixpoint run {W A} (p : Proc W A) (s : St W) : A * St W :=
  match p with
  | Ret a => (a, s)
  | Atomic act k => let '(b, s') := act s in run (k b) s'
  end.

(** One action of [p], when it has one left. *)
Definition step {W A} (p : Proc W A) (s : St W) : Proc W A * St W :=
  match p with
  | Ret a => (Ret a, s)
  | Atomic act k => let '(b, s') := act s in (k b, s')
  end.

Definition atomic {W A} (act : St W → A * St W) : Proc W A := Atomic act Ret.

(** [v, err := p; if err != nil { return ..., err }; k v] *)
Definition bindE {W A B} (p : Proc W (result A)) (f : A → Proc W (result B))
  : Proc W (result B) :=
  bind p (λ r, match r with Ok a => f a | Err e => Ret (Err e) end).

Notation "'do' x <- p ; k" := (bindE p (λ x, k))
  (at level 10, x name, p at level 100, k at level 200).

Section Actions.
Context {W : Type} `{Cloud W}.

(** A call that only reads the world. *)
Definition readWorld {A} (f : W → result A) : Proc W (result A) :=
  atomic (λ s, (f (world s), s)).

(** A call that changes the world; it is recorded. *)
Definition callWorld {A} (c : Call) (f : W → result A * W) : Proc W (result A) :=
  atomic (λ s, let '(r, w) := f (world s) in
               (r, mkSt (values s) w (calls s ++ [(c, outcome r)]))).

(** [values[key] = v] *)
Definition setValue (key v : string) : Proc W (result unit) :=
  atomic (λ s, (Ok tt, mkSt (<[key := v]> (values s)) (world s) (calls s))).

(** An action that reads the shared map. *)
Definition readValues {A} (f : gmap string string → result A) : Proc W (result A) :=
  atomic (λ s, (f (values s), s)).
End Actions.

(** ** The provisioner *)

Section Provisioner.
Context `{Platform} {W : Type} `{Cloud W}.

(** [template.New(name).Option("missingkey=error").Parse(text)] up to the
    call of [Parse]. *)
Definition template_ParseInto (t : template.Template) (text : string)
  : result template.Template :=
  match template_Parse (template.name t) text with
  | Ok tree => Ok (template.mkTemplate (template.name t) (template.missingKey t) tree)
  | Err e => Err e
  end.

(** What the templates see of a cluster and of a node pool. The slice
    [NodePools] is left out. *)
Definition clusterValue (c : api.Cluster) : template.Value :=
  template.Struct [ ("ID", template.String_ (api.ID c));
                    ("Region", template.String_ (api.Region c)) ].

Definition nodePoolValue (np : api.NodePool) : template.Value :=
  template.Struct [ ("Name", template.String_ (api.Name np));
                    ("Profile", template.String_ (api.Profile np));
                    ("InstanceType", template.String_ (api.InstanceType np));
                    ("DiscountStrategy", template.String_ (api.DiscountStrategy np)) ].

(** [&userDataParams{...}] and [&stackParams{...}]: the [Values] field is
    the reference to the shared map, so the parameters are a function of
    what the map holds when the template is executed. *)
Definition userDataParams (n : AWSNodePoolProvisioner) (nodePool : api.NodePool)
  : gmap string string → template.Value :=
  λ vals, template.Struct [ ("Cluster", clusterValue (Cluster n));
                            ("NodePool", nodePoolValue nodePool);
                            ("Values", template.Map vals) ].

Definition stackParams (n : AWSNodePoolProvisioner) (nodePool : api.NodePool)
    (userData : string) : gmap string string → template.Value :=
  λ vals, template.Struct [ ("Cluster", clusterValue (Cluster n));
                            ("NodePool", nodePoolValue nodePool);
                            ("UserData", template.String_ userData);
                            ("Values", template.Map vals) ].

Definition renderTemplate (templateFile : string)
    (data : gmap string string → template.Value) : Proc W (result string) :=
  do content <- readWorld (ioutil_ReadFile templateFile) ;
  do t <- Ret (template_ParseInto
                 (template.Option (template.New templateFile) "missingkey=error")
                 content) ;
  readValues (λ vals, template.Execute fmt_Sprint t (data vals)).

(** The write to the hasher cannot fail ([hash.Hash]), so the branch on its
    error is not taken. *)
Definition uploadUserDataToS3 (userData bucketName : string)
  : Proc W (result string) :=
  do _ <- callWorld (CallCreateS3Bucket bucketName) (createS3Bucket bucketName) ;
  let sha := hex_EncodeToString (sha512_Sum userData) in
  let objectName := sha +:+ ".userdata" in
  do _ <- callWorld (CallUpload bucketName objectName userData)
                    (s3Uploader_Upload bucketName objectName userData) ;
  Ret (Ok ("s3://" +:+ bucketName +:+ "/" +:+ objectName)).

Definition prepareUserData (n : AWSNodePoolProvisioner) (clcPath : string)
    (config : gmap string string → template.Value) : Proc W (result string) :=
  do rendered <- renderTemplate clcPath config ;
  match clcToIgnition rendered with
  | Err err =>
      Ret (Err (fmt_Errorf ("failed to parse config " +:+ clcPath +:+ ": "
                            +:+ Error err)))
  | Ok ignCfg =>
      do uri <- uploadUserDataToS3 ignCfg (bucketName n) ;
      let ignCfg := ignitionBaseTemplate uri in
      Ret (Ok (base64_EncodeToString ignCfg))
  end.

Definition generateNodePoolStackTemplate (n : AWSNodePoolProvisioner)
    (nodePool : api.NodePool) : Proc W (result string) :=
  let nodePoolProfilesPath := path_Join [cfgBaseDir n; api.Profile nodePool] in
  do fi <- readWorld (os_Stat nodePoolProfilesPath) ;
  if negb (IsDir fi) then
    Ret (Err (fmt_Errorf ("failed to find configuration for node pool profile '"
                          +:+ api.Profile nodePool +:+ "'")))
  else
    let userDataPath := path_Join [nodePoolProfilesPath; userDataFileName] in
    do renderedUserData <-
      prepareUserData n userDataPath (userDataParams n nodePool) ;
    let params := stackParams n nodePool renderedUserData in
    let stackFileName := path_Join [nodePoolProfilesPath; stackFileName] in
    renderTemplate stackFileName params.

(** The [switch] on the discount strategy, after [values["spot_price"] = ""]. *)
Definition resolveSpotPrice (n : AWSNodePoolProvisioner) (nodePool : api.NodePool)
  : Proc W (result unit) :=
  if String.eqb (api.DiscountStrategy nodePool) discountStrategyNone then
    Ret (Ok tt)
  else if String.eqb (api.DiscountStrategy nodePool) discountStrategySpotMaxPrice then
    match InstanceInfo !! api.InstanceType nodePool with
    | None =>
        Ret (Err (fmt_Errorf ("unknown instance type "
                              +:+ api.InstanceType nodePool)))
    | Some instanceInfo =>
        match awsExt.Pricing instanceInfo !! api.Region (Cluster n) with
        | None =>
            Ret (Err (fmt_Errorf ("no price data for region "
                                  +:+ api.Region (Cluster n)
                                  +:+ ", instance type "
                                  +:+ api.InstanceType nodePool)))
        | Some onDemandPrice => setValue "spot_price" onDemandPrice
        end
    end
  else
    Ret (Err (fmt_Errorf ("unsupported node pool discount_strategy "
                          +:+ api.DiscountStrategy nodePool))).

Definition stackNameOf (n : AWSNodePoolProvisioner) (nodePool : api.NodePool)
  : string :=
  "nodepool-" +:+ api.Name nodePool +:+ "-"
  +:+ strings_Replace1 (api.ID (Cluster n)) ":" "-".

Definition provisionNodePool (n : AWSNodePoolProvisioner)
    (nodePool : api.NodePool) : Proc W (result unit) :=
  do _ <- setValue "spot_price" "" ;
  do _ <- resolveSpotPrice n nodePool ;
  do template <- generateNodePoolStackTemplate n nodePool ;
  let stackName := stackNameOf n nodePool in
  let tags := nodePoolStackTags (api.ID (Cluster n)) nodePool in
  do _ <- callWorld (CallApplyStack stackName template tags)
                    (applyStack stackName template "" tags true) ;
  do _ <- callWorld (CallWaitForStack stackName) (waitForStack stackName) ;
  Ret (Ok tt).

(** *** [Provision]: one goroutine per node pool *)

(** A goroutine of [Provision] is running [provisionNodePool] for its copy
    of the node pool, or has sent its result and exited; [Exited] keeps what
    [provisionNodePool] returned. *)
Inductive Goroutine : Type :=
| Running (nodePool : api.NodePool) (p : Proc W (result unit))
| Exited (nodePool : api.NodePool) (err : result unit).

(** [if err != nil { err = fmt.Errorf(...) }] *)
Definition wrapError (nodePool : api.NodePool) (err : result unit) : result unit :=
  match err with
  | Ok _ => Ok tt
  | Err e =>
      Err (fmt_Errorf ("failed to provision node pool " +:+ api.Name nodePool
                       +:+ ": " +:+ Error e))
  end.

(** One step of a goroutine: an action of [provisionNodePool], or, once it
    has returned, the send [errorsc <- err]. The channel has room for every
    goroutine's message, so the send never blocks. *)
Definition goStep (g : Goroutine) (s : St W) (errorsc : list (result unit))
  : Goroutine * St W * list (result unit) :=
  match g with
  | Running nodePool (Atomic act k) =>
      let '(b, s') := act s in (Running nodePool (k b), s', errorsc)
  | Running nodePool (Ret err) =>
      (Exited nodePool err, s, errorsc ++ [wrapError nodePool err])
  | Exited _ _ => (g, s, errorsc)
  end.

(** The goroutine runs alone until it exits. *)
Definition goFinish (g : Goroutine) (s : St W) (errorsc : list (result unit))
  : Goroutine * St W * list (result unit) :=
  match g with
  | Running nodePool p =>
      let '(err, s') := run p s in
      (Exited nodePool err, s', errorsc ++ [wrapError nodePool err])
  | Exited _ _ => (g, s, errorsc)
  end.

(** An interleaving: [sched] names the goroutine that takes each step. *)
Fixpoint interleave (sched : list nat) (gs : list Goroutine) (s : St W)
    (errorsc : list (result unit))
  : list Goroutine * St W * list (result unit) :=
  match sched with
  | [] => (gs, s, errorsc)
  | i :: rest =>
      match gs !! i with
      | Some g =>
          let '(g', s', errorsc') := goStep g s errorsc in
          interleave rest (<[i := g']> gs) s' errorsc'
      | None => interleave rest gs s errorsc
      end
  end.

(** Every goroutine still running when the schedule ends runs to its end,
    so that each [sched] stands for a complete execution. *)
Fixpoint finishAll (todo done : list Goroutine) (s : St W)
    (errorsc : list (result unit))
  : list Goroutine * St W * list (result unit) :=
  match todo with
  | [] => (done, s, errorsc)
  | g :: rest =>
      let '(g', s', errorsc') := goFinish g s errorsc in
      finishAll rest (done ++ [g']) s' errorsc'
  end.

(** [n] receives [<-errorsc]; with fewer messages the receiver blocks for
    ever ([None]). *)
Fixpoint receive (n : nat) (errorsc : list (result unit))
  : option (list (result unit)) :=
  match n with
  | O => Some []
  | S n' =>
      match errorsc with
      | [] => None
      | err :: rest => cons err <$> receive n' rest
      end
  end.

(** The loop that collects [errorStrs]. *)
Definition collectErrorStrs (received : list (result unit)) : list string :=
  foldl (λ errorStrs err,
           match err with
           | Err e => errorStrs ++ [Error e]
           | Ok _ => errorStrs
           end) [] received.

Definition launch (n : AWSNodePoolProvisioner) (nodePools : list api.NodePool)
  : list Goroutine :=
  map (λ nodePool, Running nodePool (provisionNodePool n nodePool)) nodePools.

(** [Provision(values)] on the map in the cell [values], under the
    schedule [sched]. The result is [None] when [Provision] never
    returns. The goroutines at the end are returned for reference. *)
Definition Provision (n : AWSNodePoolProvisioner) (sched : list nat) (s : St W)
  : option (result unit) * St W * list Goroutine :=
  let nodePools := getNonLegacyNodePools (Cluster n) in
  let '(gs, s1, errorsc1) := interleave sched (launch n nodePools) s [] in
  let '(gs', s2, errorsc2) := finishAll gs [] s1 errorsc1 in
  let result :=
    received ← receive (length nodePools) errorsc2;
    let errorStrs := collectErrorStrs received in
    Some (if decide (0 < length errorStrs)
          then Err (errors_New (strings_Join errorStrs ", "))
          else Ok tt) in
  (result, s2, gs').

(** *** [Reconcile] *)

(** The loop over the orphaned stacks. *)
Fixpoint decommission (orphaned : list cloudformation.Stack)
  : Proc W (result unit) :=
  match orphaned with
  | [] => Ret (Ok tt)
  | stack :: rest =>
      let nodePool := nodePoolStackToNodePool stack in
      do _ <- callWorld (CallScalePool nodePool 0) (ScalePool nodePool 0) ;
      let stackName := aws_StringValue (cloudformation.StackName stack) in
      do _ <- callWorld (CallDeleteStack stackName) (DeleteStack stackName) ;
      decommission rest
  end.

Definition reconcileTags (n : AWSNodePoolProvisioner) : gmap string string :=
  <[nodePoolRoleTagKey := "true"]>
    (<[tagNameKubernetesClusterPrefix +:+ api.ID (Cluster n) := resourceLifecycleOwned]> ∅).

(** The log line on the number of orphans is left out. *)
Definition Reconcile (n : AWSNodePoolProvisioner) : Proc W (result unit) :=
  let tags := reconcileTags n in
  do nodePoolStacks <- callWorld (CallListStacks tags) (ListStacks tags) ;
  let orphaned := orphanedNodePoolStacks nodePoolStacks (api.NodePools (Cluster n)) in
  decommission orphaned.
End Provisioner.

(** ** An in-memory world

    A file system, an object store and a stack registry in memory, for
    running the provisioner on concrete inputs. Every call that can fail
    takes the next entry of [faults]: [Some e] makes the call fail with [e]
    and change nothing, [None] (or no entry left) lets it go through. *)
Module Mem.
Inductive File : Type := Dir | Regular (content : string).

Record World : Type := mkWorld {
  files : gmap string File;
  buckets : gmap string (gmap string string);
  stacks : list cloudformation.Stack;
  faults : list (option error)
}.

Definition nextFault (w : World) : option error * World :=
  match faults w with
  | [] => (None, w)
  | f :: rest => (f, mkWorld (files w) (buckets w) (stacks w) rest)
  end.

(** A fallible call: [op] on the world when no fault is injected. *)
Definition fallible {A} (op : World → result A * World) (w : World)
  : result A * World :=
  match nextFault w with
  | (Some e, w') => (Err e, w')
  | (None, w') => op w'
  end.

Definition stat (pth : string) (w : World) : result FileInfo :=
  match files w !! pth with
  | Some Dir => Ok (mkFileInfo true)
  | Some (Regular _) => Ok (mkFileInfo false)
  | None => Err (PathError "stat" pth ENOENT)
  end.

Definition readFile (pth : string) (w : World) : result string :=
  match files w !! pth with
  | Some (Regular content) => Ok content
  | Some Dir => Err (PathError "read" pth "is a directory")
  | None => Err (PathError "open" pth ENOENT)
  end.

(** Modelled from the spec: [createS3Bucket] is a method of the
    [awsAdapter], outside [node_pools.go]; it ensures that the bucket
    exists, and creating a bucket that is present is no error. *)
Definition createBucket (bucket : string) : World → result unit * World :=
  fallible (λ w,
    match buckets w !! bucket with
    | Some _ => (Ok tt, w)
    | None =>
        (Ok tt, mkWorld (files w) (<[bucket := ∅]> (buckets w)) (stacks w) (faults w))
    end).

(** The upload puts the object under its key; an object already there is
    overwritten. *)
Definition upload (bucket key body : string) : World → result unit * World :=
  fallible (λ w,
    match buckets w !! bucket with
    | Some objects =>
        (Ok tt, mkWorld (files w) (<[bucket := <[key := body]> objects]> (buckets w))
                        (stacks w) (faults w))
    | None => (Err (errorString "NoSuchBucket"), w)
    end).

Definition hasName (stackName : string) (stack : cloudformation.Stack) : bool :=
  String.eqb (aws_StringValue (cloudformation.StackName stack)) stackName.

Definition applyTo (stackName template templateURL : string)
    (tags : list cloudformation.Tag) (updateStack : bool)
  : World → result unit * World :=
  fallible (λ w,
    let stack := cloudformation.mkStack (aws_String stackName) tags in
    (Ok tt, mkWorld (files w) (buckets w)
              (List.filter (λ st, negb (hasName stackName st)) (stacks w) ++ [stack])
              (faults w))).

Definition waitFor (stackName : string) : World → result unit * World :=
  fallible (λ w, (Ok tt, w)).

Definition hasTag (stack : cloudformation.Stack) (kv : string * string) : bool :=
  existsb (λ tag,
             String.eqb (aws_StringValue (cloudformation.Key tag)) kv.1
             && String.eqb (aws_StringValue (cloudformation.Value tag)) kv.2)
          (cloudformation.Tags stack).

Definition listStacks (tags : gmap string string)
  : World → result (list cloudformation.Stack) * World :=
  fallible (λ w,
    (Ok (List.filter (λ st, forallb (hasTag st) (map_to_list tags)) (stacks w)), w)).

Definition deleteStack (stackName : string) : World → result unit * World :=
  fallible (λ w,
    (Ok tt, mkWorld (files w) (buckets w)
              (List.filter (λ st, negb (hasName stackName st)) (stacks w))
              (faults w))).

Definition scale (nodePool : api.NodePool) (replicas : Z)
  : World → result unit * World :=
  fallible (λ w, (Ok tt, w)).

#[global] Instance cloud : Cloud World := {
  os_Stat := stat;
  ioutil_ReadFile := readFile;
  createS3Bucket := createBucket;
  s3Uploader_Upload := upload;
  applyStack := applyTo;
  waitForStack := waitFor;
  ListStacks := listStacks;
  DeleteStack := deleteStack;
  ScalePool := scale
}.

(** A parser for the templates of the embedding: text and, between
    [{{] and [}}], a field chain [.A.B], [index .A.B] with a quoted key,
    [if .A.B], [with .A.B], [else] and [end]. *)
Fixpoint splitDots (s acc : string) : list string :=
  match s with
  | EmptyString => [acc]
  | String c rest =>
      if Ascii.eqb c "." then acc :: splitDots rest ""
      else splitDots rest (acc +:+ String c "")
  end.

Definition fieldChain (s : string) : option (list string) :=
  match s with
  | String "." EmptyString => Some []
  | String "." rest => Some (splitDots rest "")
  | _ => None
  end.

Fixpoint trimPrefix (s prefix : string) : option string :=
  match prefix, s with
  | EmptyString, _ => Some s
  | String c prefix', String c' s' =>
      if Ascii.eqb c c' then trimPrefix s' prefix' else None
  | String _ _, EmptyString => None
  end.

(** The text up to the first space, and the text after it. *)
Fixpoint cutSpace (s acc : string) : string * string :=
  match s with
  | EmptyString => (acc, "")
  | String c rest =>
      if Ascii.eqb c " " then (acc, rest) else cutSpace rest (acc +:+ String c "")
  end.

(** The text of a string constant, after its opening quote. *)
Fixpoint unquote (s acc : string) : option string :=
  match s with
  | EmptyString => None
  | String c EmptyString => if Ascii.eqb c (ascii_of_nat 34) then Some acc else None
  | String c rest => unquote rest (acc +:+ String c "")
  end.

(** What the lexer and the first stage of the parser make of a template. *)
Inductive Item : Type :=
| NodeItem (node : template.Node)
| IfItem (pipe : list string)
| WithItem (pipe : list string)
| ElseItem
| EndItem.

Definition indexItem (args : string) : option Item :=
  let '(item, key) := cutSpace args "" in
  ident ← fieldChain item;
  match key with
  | String c rest =>
      if Ascii.eqb c (ascii_of_nat 34)
      then key' ← unquote rest ""; Some (NodeItem (template.IndexNode ident key'))
      else None
  | EmptyString => None
  end.

Definition actionItem (action : string) : result Item :=
  let unexpected := Err (errorString ("unexpected " +:+ action +:+ " in command")) in
  if String.eqb action "end" then Ok EndItem
  else if String.eqb action "else" then Ok ElseItem
  else match trimPrefix action "if " with
  | Some pipe => from_option (λ ident, Ok (IfItem ident)) unexpected (fieldChain pipe)
  | None =>
  match trimPrefix action "with " with
  | Some pipe => from_option (λ ident, Ok (WithItem ident)) unexpected (fieldChain pipe)
  | None =>
  match trimPrefix action "index " with
  | Some args => from_option Ok unexpected (indexItem args)
  | None =>
      from_option (λ ident, Ok (NodeItem (template.FieldNode ident))) unexpected
        (fieldChain action)
  end end end.

Definition textItem (text : string) : list Item :=
  if String.eqb text "" then [] else [NodeItem (template.TextNode text)].

Definition consItems (items : list Item) (r : result (list Item))
  : result (list Item) :=
  match r with Ok more => Ok (items ++ more) | Err e => Err e end.

Fixpoint lex (text acc : string) (inAction : bool) : result (list Item) :=
  match text with
  | EmptyString =>
      if inAction then Err (errorString "unclosed action") else Ok (textItem acc)
  | String c rest =>
      match rest with
      | String c' rest' =>
          if negb inAction && Ascii.eqb c "{" && Ascii.eqb c' "{" then
            consItems (textItem acc) (lex rest' "" true)
          else if inAction && Ascii.eqb c "}" && Ascii.eqb c' "}" then
            match actionItem acc with
            | Ok item => consItems [item] (lex rest' "" false)
            | Err e => Err e
            end
          else lex rest (acc +:+ String c "") inAction
      | EmptyString => lex rest (acc +:+ String c "") inAction
      end
  end.

(** The list of nodes up to the next [else] or [end] that belongs to no
    [if] or [with] of the list, and the items from there on. *)
Fixpoint itemList (fuel : nat) (items : list Item)
  : result (list template.Node * list Item) :=
  match fuel with
  | O => Err (errorString "unexpected EOF")
  | S fuel =>
      let control (mkNode : list template.Node → list template.Node → template.Node)
          (rest : list Item) : result (list template.Node * list Item) :=
        match itemList fuel rest with
        | Ok (nodes, EndItem :: rest1) =>
            match itemList fuel rest1 with
            | Ok (more, rest2) => Ok (mkNode nodes [] :: more, rest2)
            | Err e => Err e
            end
        | Ok (nodes, ElseItem :: rest1) =>
            match itemList fuel rest1 with
            | Ok (elseNodes, EndItem :: rest2) =>
                match itemList fuel rest2 with
                | Ok (more, rest3) => Ok (mkNode nodes elseNodes :: more, rest3)
                | Err e => Err e
                end
            | Ok _ => Err (errorString "unexpected EOF")
            | Err e => Err e
            end
        | Ok _ => Err (errorString "unexpected EOF")
        | Err e => Err e
        end in
      match items with
      | [] => Ok ([], [])
      | NodeItem node :: rest =>
          match itemList fuel rest with
          | Ok (more, rest1) => Ok (node :: more, rest1)
          | Err e => Err e
          end
      | IfItem pipe :: rest => control (template.IfNode pipe) rest
      | WithItem pipe :: rest => control (template.WithNode pipe) rest
      | ElseItem :: _ | EndItem :: _ => Ok ([], items)
      end
  end.

Definition parse (text : string) : result (list template.Node) :=
  match lex text "" false with
  | Ok items =>
      match itemList (S (length items)) items with
      | Ok (nodes, []) => Ok nodes
      | Ok (_, ElseItem :: _) => Err (errorString "unexpected {{else}}")
      | Ok _ => Err (errorString "unexpected {{end}}")
      | Err e => Err e
      end
  | Err e => Err e
  end.

(** The platform of the examples: one instance type with a price in one
    region, every node pool of the cluster a target, and stand-ins for the
    converter, the digest and the encoders. *)
#[global] Program Instance platform : Platform := {
  discountStrategyNone := "none";
  discountStrategySpotMaxPrice := "spot_max_price";
  InstanceInfo :=
    {[ "m5.large" := awsExt.mkInfo {[ "eu-central-1" := "0.115" ]} ]};
  getNonLegacyNodePools := api.NodePools;
  clcToIgnition := λ rendered, Ok rendered;
  ignitionBaseTemplate := λ uri, "source=" +:+ uri;
  sha512_Sum := λ data, data;
  base64_EncodeToString := λ src, src;
  template_Parse := λ _ text, parse text;
  fmt_Sprint := λ _, ""
}.
Next Obligation. discriminate. Qed.

Definition world0 : World := mkWorld ∅ ∅ [] [].
End Mem.

(** ** Example inputs *)

Module Example.
Definition poolA : api.NodePool :=
  api.mkNodePool "a" "worker" "m5.large" "spot_max_price".
Definition poolB : api.NodePool :=
  api.mkNodePool "b" "worker" "m5.large" "none".
Definition cluster : api.Cluster :=
  api.mkCluster "aws:123:eu" "eu-central-1" [poolA; poolB].
Definition provisioner : AWSNodePoolProvisioner :=
  mkProvisioner "bucket" "/cfg" cluster.

(** The profile [worker] with its two templates. *)
Definition files : gmap string Mem.File :=
  {[ "/cfg/worker" := Mem.Dir;
     "/cfg/worker/userdata.clc.yaml" := Mem.Regular "pool {{.NodePool.Name}}";
     "/cfg/worker/stack.yaml" :=
       Mem.Regular "price={{.Values.spot_price}};userdata={{.UserData}}" ]}.

(** An empty [values] map, the profile on disk, nothing in the cloud. *)
Definition start : St Mem.World := mkSt ∅ (Mem.mkWorld files ∅ [] []) [].

(** A stack of the cluster that no desired pool stands for, and one that
    has the ownership, role and legacy tags and no name tag. *)
Definition oldStack : cloudformation.Stack :=
  cloudformation.mkStack (Some "nodepool-old-aws-123-eu")
    (nodePoolStackTags "aws:123:eu" (api.mkNodePool "old" "worker" "m5.large" "none")).

Definition namelessStack : cloudformation.Stack :=
  cloudformation.mkStack (Some "nodepool-legacy-aws-123-eu")
    [ cloudformation.mkTag (Some "kubernetes.io/cluster/aws:123:eu") (Some "owned");
      cloudformation.mkTag (Some "kubernetes.io/role/node-pool") (Some "true");
      cloudformation.mkTag (Some "NodePool") (Some "legacy") ].

(** Three target pools, the second of an instance type the table does not
    know; and three of which the first and the last cannot be provisioned. *)
Definition poolOne : api.NodePool :=
  api.mkNodePool "one" "worker" "m5.large" "none".
Definition poolTwo : api.NodePool :=
  api.mkNodePool "two" "worker" "x9.huge" "spot_max_price".
Definition poolThree : api.NodePool :=
  api.mkNodePool "three" "worker" "m5.large" "spot_max_price".
Definition poolFour : api.NodePool :=
  api.mkNodePool "four" "nope" "m5.large" "none".
Definition oneTwoThree : AWSNodePoolProvisioner :=
  mkProvisioner "bucket" "/cfg"
    (api.mkCluster "aws:123:eu" "eu-central-1" [poolOne; poolTwo; poolThree]).
Definition twoOneFour : AWSNodePoolProvisioner :=
  mkProvisioner "bucket" "/cfg"
    (api.mkCluster "aws:123:eu" "eu-central-1" [poolTwo; poolOne; poolFour]).

(** The stack of the desired pool [a]. *)
Definition stackA : cloudformation.Stack :=
  cloudformation.mkStack (Some "nodepool-a-aws-123-eu")
    (nodePoolStackTags "aws:123:eu" poolA).

(** A state with the given live stacks and the given faults to come. *)
Definition live (stacks : list cloudformation.Stack) (faults : list (option error))
  : St Mem.World :=
  mkSt ∅ (Mem.mkWorld files ∅ stacks faults) [].
End Example.

(** ** What a run of the decommission loop looks like

    [Decommissioned orphaned evs r]: the calls [evs] and the result [r] of
    the loop over [orphaned]. For each stack in turn a successful drain is
    followed by a delete; the first failure is the last call. *)
Inductive Decommissioned
  : list cloudformation.Stack → list Event → result unit → Prop :=
| Decommissioned_nil :
    Decommissioned [] [] (Ok tt)
| Decommissioned_drain_failed stack rest e :
    Decommissioned (stack :: rest)
      [(CallScalePool (nodePoolStackToNodePool stack) 0, Some e)] (Err e)
| Decommissioned_delete_failed stack rest e :
    Decommissioned (stack :: rest)
      [(CallScalePool (nodePoolStackToNodePool stack) 0, None);
       (CallDeleteStack (aws_StringValue (cloudformation.StackName stack)), Some e)]
      (Err e)
| Decommissioned_next stack rest evs r :
    Decommissioned rest evs r →
    Decommissioned (stack :: rest)
      ((CallScalePool (nodePoolStackToNodePool stack) 0, None)
       :: (CallDeleteStack (aws_StringValue (cloudformation.StackName stack)), None)
       :: evs) r.

(** What the loop of [Reconcile], with the calls [evs] and the result [r],
    makes of the orphan [stack] at position [k] of its list: a call for an
    orphan before it failed and ended the loop with its error; or the loop
    called [ScalePool] on the decoded pool with 0 replicas, and either this
    call failed and ended the loop, or the loop called [DeleteStack] on the
    name of the stack right after it, and a failure of that call ended the
    loop. *)
Definition decommissionedAt (k : nat) (stack : cloudformation.Stack)
    (evs : list Event) (r : result unit) : Prop :=
  let drain := CallScalePool (nodePoolStackToNodePool stack) 0 in
  let delete := CallDeleteStack (aws_StringValue (cloudformation.StackName stack)) in
  (∃ j c e, j < 2 * k ∧ evs !! j = Some (c, Some e) ∧ r = Err e) ∨
  (∃ e, evs !! (2 * k) = Some (drain, Some e) ∧ r = Err e) ∨
  (evs !! (2 * k) = Some (drain, None) ∧
   ((∃ e, evs !! S (2 * k) = Some (delete, Some e) ∧ r = Err e) ∨
    evs !! S (2 * k) = Some (delete, None))).

(** The stack carries no tag with the key [nodePoolTagKey]. *)
Definition noNameTag (stack : cloudformation.Stack) : Prop :=
  ∀ tag, tag ∈ cloudformation.Tags stack →
         aws_StringValue (cloudformation.Key tag) ≠ nodePoolTagKey.

(** ** Statements about templates and the shared map *)

(** The field chain [ident], evaluated on [dot], reaches a map and asks it
    for a key that the map does not hold. *)
Definition refersToMissingKey (dot : template.Value) (ident : list string) : Prop :=
  ∃ path key rest entries,
    ident = path ++ key :: rest ∧
    template.evalFieldChain template.mapError dot path = Ok (template.Map entries) ∧
    entries !! key = None.


(** The process never changes the shared map. *)
Definition keepsValues {W A} (p : Proc W A) : Prop :=
  ∀ s, values (run p s).2 = values s.

(** The process changes nothing at all. *)
Definition readsOnly {W A} (p : Proc W A) : Prop :=
  ∀ s, (run p s).2 = s.

(** ** Views of the goroutines of [Provision] *)

Section GoroutineViews.
Context {W : Type}.

Definition poolOf (g : Goroutine (W := W)) : api.NodePool :=
  match g with Running nodePool _ | Exited nodePool _ => nodePool end.

(** What [provisionNodePool] returned in a goroutine that has exited. *)
Definition resultOf (g : Goroutine (W := W)) : result unit :=
  match g with Exited _ err => err | Running _ _ => Ok tt end.

(** The message a goroutine has sent on [errorsc], once it has exited. *)
Definition sent (g : Goroutine (W := W)) : option (result unit) :=
  match g with
  | Exited nodePool err => Some (wrapError nodePool err)
  | Running _ _ => None
  end.

Definition hasExited (g : Goroutine (W := W)) : Prop :=
  match g with Exited _ _ => True | Running _ _ => False end.

(** The goroutines [gs] are those of the pools [nodePools], and the channel
    holds the messages of those that have exited, in some order. *)
Definition channelInv (nodePools : list api.NodePool)
    (gs : list (Goroutine (W := W))) (errorsc : list (result unit)) : Prop :=
  poolOf <$> gs = nodePools ∧ errorsc ≡ₚ omap sent gs.
End GoroutineViews.

(** The texts of the errors among the received messages. *)
Definition errorTexts (received : list (result unit)) : list string :=
  omap (λ err, match err with Err e => Some (Error e) | Ok _ => None end) received.

(** The stack templates handed to [applyStack], by stack name, in the order
    of the calls. *)
Definition appliedTemplates (evs : list Event) : list (string * string) :=
  omap (λ ev, match ev.1 with
              | CallApplyStack stackName template _ => Some (stackName, template)
              | _ => None
              end) evs.

(** ** Statements about tags *)

(** The tag list holds the key with the value. *)
Definition carriesTag (tags : list cloudformation.Tag) (key value : string) : Prop :=
  ∃ tag, tag ∈ tags ∧
         cloudformation.Key tag = Some key ∧ cloudformation.Value tag = Some value.

(** ** Statements about the calls of [Reconcile] *)

(** The two calls that decommission a stack, both returning nil. *)
Definition drainAndDelete (stack : cloudformation.Stack) : list Event :=
  [ (CallScalePool (nodePoolStackToNodePool stack) 0, None);
    (CallDeleteStack (aws_StringValue (cloudformation.StackName stack)), None) ].

(** The call is the drain or the delete of the stack. *)
Definition decommissions (stack : cloudformation.Stack) (c : Call) : Prop :=
  c = CallScalePool (nodePoolStackToNodePool stack) 0 ∨
  c = CallDeleteStack (aws_StringValue (cloudformation.StackName stack)).

(** ** Statements about the calls of a process *)

(** The calls [evs] of a run with result [r] stop at the first failure: a
    failing call is the last one and [r] is its error; and when [r] is a
    success no call has failed. *)
Definition stopsAtFailure {A} (evs : list Event) (r : result A) : Prop :=
  (∀ i c e, evs !! i = Some (c, Some e) → r = Err e ∧ length evs = S i) ∧
  (∀ a, r = Ok a → ∀ ev, ev ∈ evs → ev.2 = None).

Definition FailStop {W A} (p : Proc W (result A)) : Prop :=
  ∀ s, ∃ evs, calls (run p s).2 = calls s ++ evs ∧ stopsAtFailure evs (run p s).1.

(** A platform like the one of the examples whose converter rejects every
    configuration. *)
Definition rejectingPlatform : Platform :=
  {| discountStrategyNone := "none";
     discountStrategySpotMaxPrice := "spot_max_price";
     discountStrategy_distinct := ltac:(discriminate);
     InstanceInfo := ∅;
     getNonLegacyNodePools := api.NodePools;
     clcToIgnition := λ _, Err (errorString "invalid configuration");
     ignitionBaseTemplate := λ uri, "source=" +:+ uri;
     sha512_Sum := λ data, data;
     base64_EncodeToString := λ src, src;
     template_Parse := λ _ text, Mem.parse text;
     fmt_Sprint := λ _, "" |}.

(** [fromHexChar] of [encoding/hex] on the digits that [hextable] yields;
    it serves to read an encoding back. *)
Definition fromHexChar (c : ascii) : N :=
  let v := N_of_ascii c in
  if (48 <=? v)%N && (v <=? 57)%N then (v - 48)%N
  else if (97 <=? v)%N && (v <=? 102)%N then (v - 97 + 10)%N
  else 0%N.

(** ** Statements about the keys of the shared map *)

(** No action of the process changes what the shared map holds for [key]. *)
Fixpoint keepsKey {W A} (key : string) (p : Proc W A) : Prop :=
  match p with
  | Ret _ => True
  | Atomic act k =>
      (∀ s, values (act s).2 !! key = values s !! key) ∧
      ∀ b, keepsKey key (k b)
  end.

Definition goroutineKeepsKey {W} (key : string) (g : Goroutine (W := W)) : Prop :=
  match g with
  | Running _ p => keepsKey key p
  | Exited _ _ => True
  end.

(** ** Executions of the goroutines *)

(** [Exec p steps a]: an execution of [p] to its end; [steps] holds the
    state before and the state after each action of [p], in order, and [a] is
    what [p] returns.  Other goroutines act between two actions of [p], so
    the state before an action need not be the state after the action
    before it. *)
Fixpoint Exec {W A} (p : Proc W A) (steps : list (St W * St W)) (a : A) : Prop :=
  match p with
  | Ret a' => steps = [] ∧ a = a'
  | Atomic act k =>
      ∃ s rest, steps = (s, (act s).2) :: rest ∧ Exec (k (act s).1) rest a
  end.

(** Every action of the process keeps the calls recorded before it. *)
Fixpoint appendsCalls {W A} (p : Proc W A) : Prop :=
  match p with
  | Ret _ => True
  | Atomic act k =>
      (∀ s, calls s `prefix_of` calls (act s).2) ∧
      ∀ b, appendsCalls (k b)
  end.

(** The action from [st.1] to [st.2] belongs to a run from [s0] to [s1], as
    far as the recorded calls tell: the calls of [s0] had been made before
    it, and the calls it left are among those of [s1]. *)
Definition during {W} (s0 s1 : St W) (st : St W * St W) : Prop :=
  calls s0 `prefix_of` calls st.1 ∧
  calls st.1 `prefix_of` calls st.2 ∧
  calls st.2 `prefix_of` calls s1.

Section Attempts.
Context `{Platform} {W : Type} `{Cloud W}.

(** In a run from [s0] to [s1], [provisionNodePool] was executed for
    [nodePool] to its end and returned [err]. *)
Definition attempted (n : AWSNodePoolProvisioner) (s0 s1 : St W)
    (nodePool : api.NodePool) (err : result unit) : Prop :=
  ∃ steps, Exec (provisionNodePool n nodePool) steps err ∧
           Forall (during s0 s1) steps.

(** A goroutine of a run from [s0] that has arrived at [s1]: what is left
    of [provisionNodePool] for its pool after the actions it has taken, or
    the result of the whole. *)
Definition tracked (n : AWSNodePoolProvisioner) (s0 s1 : St W)
    (g : Goroutine) : Prop :=
  match g with
  | Running nodePool p =>
      appendsCalls p ∧
      ∃ taken, Forall (during s0 s1) taken ∧
               ∀ steps err, Exec p steps err →
                            Exec (provisionNodePool n nodePool) (taken ++ steps) err
  | Exited nodePool err => attempted n s0 s1 nodePool err
  end.


End Attempts.

(** A cluster without node pools. *)
Definition emptyProvisioner : AWSNodePoolProvisioner :=
  mkProvisioner "bucket" "/cfg" (api.mkCluster "aws:123:eu" "eu-central-1" []).

(** * Properties *)

(** ** Strings *)

Lemma append_cons (c : ascii) (s t : string) :
  String c s +:+ t = String c (s +:+ t).
Proof. reflexivity. Qed.

Lemma append_nil_r (s : string) : s +:+ "" = s.
Proof. induction s as [|c s IH]; [done|]. by rewrite append_cons, IH. Qed.

Lemma append_assoc (s t u : string) : (s +:+ t) +:+ u = s +:+ (t +:+ u).
Proof. induction s as [|c s IH]; [done|]. by rewrite !append_cons, IH. Qed.

Lemma Contains_refl (s : string) : Contains s s.
Proof. exists "", "". by rewrite append_nil_r. Qed.

Lemma Contains_append_r (s t u : string) : Contains t u → Contains (s +:+ t) u.
Proof.
  intros (before & after & ->). exists (s +:+ before), after.
  by rewrite append_assoc.
Qed.

Lemma Contains_append_l (s t u : string) : Contains s u → Contains (s +:+ t) u.
Proof.
  intros (before & after & ->). exists before, (after +:+ t).
  by rewrite !append_assoc.
Qed.

Lemma prefix_spec (t s : string) :
  String.prefix t s = true ↔ ∃ after, s = t +:+ after.
Proof.
  revert s. induction t as [|c t IH]; intros s.
  - destruct s; (split; [intros _; by eexists | done]).
  - destruct s as [|c' s]; cbn [String.prefix].
    + split; [done | by intros [after ?]].
    + destruct (ascii_dec c c') as [->|Hne].
      * rewrite IH. split; intros [after Hafter]; exists after.
        -- by rewrite append_cons, <- Hafter.
        -- rewrite append_cons in Hafter. by injection Hafter.
      * split; [done|]. intros [after Hafter].
        rewrite append_cons in Hafter. by injection Hafter.
Qed.

(** The test decides the proposition. *)
Lemma strings_Contains_spec (s substr : string) :
  strings_Contains s substr = true ↔ Contains s substr.
Proof.
  induction s as [|c s IH].
  - cbn [strings_Contains]. rewrite orb_false_r, prefix_spec. split.
    + intros [after ->]. by exists "", after.
    + intros ([|c before] & after & Heq); [by exists after | done].
  - cbn [strings_Contains]. rewrite orb_true_iff, prefix_spec, IH. split.
    + intros [[after ->]|(before & after & ->)].
      * by exists "", after.
      * by exists (String c before), after.
    + intros ([|c' before] & after & Heq).
      * left. by exists after.
      * right. rewrite append_cons in Heq. injection Heq as -> ->.
        by exists before, after.
Qed.

(** A string that was joined in is part of the joined text. *)
Lemma Contains_strings_Join (elems : list string) (sep e : string) :
  e ∈ elems → Contains (strings_Join elems sep) e.
Proof.
  induction elems as [|x [|y rest] IH]; intros Hin.
  - by apply elem_of_nil in Hin.
  - apply list_elem_of_singleton in Hin as ->. apply Contains_refl.
  - apply elem_of_cons in Hin as [->|Hin].
    + apply Contains_append_l, Contains_refl.
    + change (strings_Join (x :: y :: rest) sep)
        with (x +:+ sep +:+ strings_Join (y :: rest) sep).
      by apply Contains_append_r, Contains_append_r, IH.
Qed.

(** ** Tag codec *)

Lemma nodePoolStackTags_decode (clusterID : string) (stackName : option string)
    (p : api.NodePool) :
  let q := nodePoolStackToNodePool
             (cloudformation.mkStack stackName (nodePoolStackTags clusterID p)) in
  api.Name q = api.Name p ∧ api.Profile q = api.Name p.
Proof. by vm_compute. Qed.

(** C1, on a node pool whose profile is not its name: the tags of the pool
    [workers] with profile [worker-default] decode to the name [workers] and
    to the profile [workers]; the profile tag was given the name, and the
    profile [worker-default] is not recovered. *)
Lemma tag_roundtrip_profile_lost :
  let p := api.mkNodePool "workers" "worker-default" "m5.large" "none" in
  let q := nodePoolStackToNodePool
             (cloudformation.mkStack (Some "nodepool-workers-c1")
                (nodePoolStackTags "c1" p)) in
  api.Name q = api.Name p ∧
  api.Profile q = "workers" ∧
  api.Profile q ≠ api.Profile p.
Proof. vm_compute. by repeat split. Qed.

(** ** Orphan detection *)

Lemma inNodePoolList_spec (nodePool : api.NodePool) (nodePools : list api.NodePool) :
  inNodePoolList nodePool nodePools = true ↔
  api.Name nodePool ∈ api.Name <$> nodePools.
Proof.
  induction nodePools as [|np rest IH].
  - split; [done|]. by intros ?%elem_of_nil.
  - rewrite fmap_cons, elem_of_cons, <- IH. cbn [inNodePoolList].
    destruct (String.eqb_spec (api.Name np) (api.Name nodePool)) as [->|Hne].
    + split; auto.
    + split; [auto|]. intros [Heq|Hin]; [by symmetry in Heq|done].
Qed.

Lemma orphaned_loop (acc nodePoolStacks : list cloudformation.Stack)
    (nodePools : list api.NodePool) :
  foldl (λ orphaned stack,
           let np := nodePoolStackToNodePool stack in
           if negb (inNodePoolList np nodePools)
           then orphaned ++ [stack]
           else orphaned)
        acc nodePoolStacks =
  acc ++ filter (λ stack, api.Name (nodePoolStackToNodePool stack)
                          ∉ api.Name <$> nodePools) nodePoolStacks.
Proof.
  revert acc. induction nodePoolStacks as [|stack rest IH]; intros acc.
  - by rewrite app_nil_r.
  - cbn [foldl]. rewrite IH, filter_cons.
    destruct (inNodePoolList _ nodePools) eqn:Hin; cbn [negb].
    + apply inNodePoolList_spec in Hin. rewrite decide_False; [done|]. auto.
    + rewrite decide_True, <- app_assoc; [done|].
      intros Hin'%inNodePoolList_spec. congruence.
Qed.

Lemma orphanedNodePoolStacks_filter (nodePoolStacks : list cloudformation.Stack)
    (nodePools : list api.NodePool) :
  orphanedNodePoolStacks nodePoolStacks nodePools =
  filter (λ stack, api.Name (nodePoolStackToNodePool stack) ∉ api.Name <$> nodePools)
         nodePoolStacks.
Proof. apply orphaned_loop. Qed.

(** C6: a stack is orphaned exactly when the name its tags decode to is not
    the name of any desired pool, the orphans keep the order of the listing,
    and only names matter: desired sets with the same names have the same
    orphans, and stacks that decode to the same name are classified alike. *)
Theorem orphaned_iff_name_absent (nodePoolStacks : list cloudformation.Stack)
    (nodePools : list api.NodePool) :
  (∀ stack, stack ∈ orphanedNodePoolStacks nodePoolStacks nodePools ↔
            stack ∈ nodePoolStacks ∧
            api.Name (nodePoolStackToNodePool stack) ∉ api.Name <$> nodePools) ∧
  orphanedNodePoolStacks nodePoolStacks nodePools =
    filter (λ stack, api.Name (nodePoolStackToNodePool stack) ∉ api.Name <$> nodePools)
           nodePoolStacks ∧
  (∀ nodePools', api.Name <$> nodePools' = api.Name <$> nodePools →
     orphanedNodePoolStacks nodePoolStacks nodePools' =
     orphanedNodePoolStacks nodePoolStacks nodePools) ∧
  (∀ np np', api.Name np = api.Name np' →
     inNodePoolList np nodePools = inNodePoolList np' nodePools).
Proof.
  split_and!.
  - intros stack. rewrite orphanedNodePoolStacks_filter, list_elem_of_filter.
    tauto.
  - apply orphanedNodePoolStacks_filter.
  - intros nodePools' Hnames. rewrite !orphanedNodePoolStacks_filter.
    by rewrite Hnames.
  - intros np np' Hname. apply eq_true_iff_eq.
    by rewrite !inNodePoolList_spec, Hname.
Qed.

(** The orphan-detection example of the specification: live stacks tagged
    A, B and C against the desired pools B and C leave exactly A. *)
Example orphaned_A_B_C :
  let stackOf name :=
    cloudformation.mkStack (Some ("nodepool-" +:+ name))
      (nodePoolStackTags "c1" (api.mkNodePool name "worker" "m5.large" "none")) in
  orphanedNodePoolStacks
    [stackOf "A"; stackOf "B"; stackOf "C"]
    [api.mkNodePool "B" "other" "m5.large" "none";
     api.mkNodePool "C" "worker" "m5.large" "none"]
  = [stackOf "A"].
Proof. reflexivity. Qed.

(** ** Running processes *)

Section Run.
Context {W : Type}.

Lemma run_bind {A B} (p : Proc W A) (f : A → Proc W B) (s : St W) :
  run (bind p f) s = run (f (run p s).1) (run p s).2.
Proof.
  revert s. induction p as [a|C act k IH]; intros s; [done|].
  cbn [bind run]. destruct (act s) as [b s']. apply IH.
Qed.

Lemma run_bindE {A B} (p : Proc W (result A)) (f : A → Proc W (result B))
    (s : St W) :
  run (bindE p f) s =
  match (run p s).1 with
  | Ok a => run (f a) (run p s).2
  | Err e => (Err e, (run p s).2)
  end.
Proof. unfold bindE. rewrite run_bind. by destruct (run p s).1. Qed.

Lemma run_bindE_Ok {A B} (p : Proc W (result A)) (f : A → Proc W (result B))
    (s s' : St W) (a : A) :
  run p s = (Ok a, s') → run (bindE p f) s = run (f a) s'.
Proof. intros Hp. by rewrite run_bindE, Hp. Qed.

Lemma run_bindE_Err {A B} (p : Proc W (result A)) (f : A → Proc W (result B))
    (s s' : St W) (e : error) :
  run p s = (Err e, s') → run (bindE p f) s = (Err e, s').
Proof. intros Hp. by rewrite run_bindE, Hp. Qed.

Lemma run_atomic {A} (act : St W → A * St W) (s : St W) :
  run (atomic act) s = act s.
Proof. unfold atomic. cbn [run]. by destruct (act s). Qed.

Context `{Cloud W}.

Lemma run_callWorld {A} (c : Call) (f : W → result A * W) (s : St W) :
  run (callWorld c f) s =
  ((f (world s)).1,
   mkSt (values s) (f (world s)).2 (calls s ++ [(c, outcome (f (world s)).1)])).
Proof. unfold callWorld. rewrite run_atomic. by destruct (f (world s)). Qed.

Lemma run_readWorld {A} (f : W → result A) (s : St W) :
  run (readWorld f) s = (f (world s), s).
Proof. unfold readWorld. by rewrite run_atomic. Qed.

Lemma run_setValue (key v : string) (s : St W) :
  run (setValue key v) s =
  (Ok tt, mkSt (<[key := v]> (values s)) (world s) (calls s)).
Proof. unfold setValue. by rewrite run_atomic. Qed.

Lemma run_readValues {A} (f : gmap string string → result A) (s : St W) :
  run (readValues f) s = (f (values s), s).
Proof. unfold readValues. by rewrite run_atomic. Qed.

(** A recorded call adds itself to the log and leaves the shared map. *)
Lemma callWorld_inv {A} (c : Call) (f : W → result A * W) (s s' : St W)
    (r : result A) :
  run (callWorld c f) s = (r, s') →
  f (world s) = (r, world s') ∧
  calls s' = calls s ++ [(c, outcome r)] ∧
  values s' = values s.
Proof.
  rewrite run_callWorld. destruct (f (world s)) as [r' w'].
  by intros [= <- <-].
Qed.
End Run.

(** ** Reconcile: drain, then delete *)

Section ReconcileProperties.
Context `{Platform} {W : Type} `{Cloud W}.

Lemma decommission_run (orphaned : list cloudformation.Stack) (s : St W) :
  ∃ evs, calls (run (decommission orphaned) s).2 = calls s ++ evs ∧
         Decommissioned orphaned evs (run (decommission orphaned) s).1.
Proof.
  revert s. induction orphaned as [|stack rest IH]; intros s.
  - exists []. split; [by rewrite app_nil_r | constructor].
  - cbn [decommission].
    destruct (run (callWorld (CallScalePool (nodePoolStackToNodePool stack) 0)
                             (ScalePool (nodePoolStackToNodePool stack) 0)) s)
      as [[[]|e] s1] eqn:Hscale;
      pose proof (callWorld_inv _ _ _ _ _ Hscale) as (_ & Hcalls1 & _).
    2:{ rewrite (run_bindE_Err _ _ _ _ _ Hscale). eexists.
        split; [exact Hcalls1 | apply Decommissioned_drain_failed]. }
    rewrite (run_bindE_Ok _ _ _ _ _ Hscale).
    destruct (run (callWorld
                     (CallDeleteStack (aws_StringValue (cloudformation.StackName stack)))
                     (DeleteStack (aws_StringValue (cloudformation.StackName stack)))) s1)
      as [[[]|e] s2] eqn:Hdelete;
      pose proof (callWorld_inv _ _ _ _ _ Hdelete) as (_ & Hcalls2 & _).
    2:{ rewrite (run_bindE_Err _ _ _ _ _ Hdelete). eexists.
        split; [|apply Decommissioned_delete_failed].
        cbn [snd]. by rewrite Hcalls2, Hcalls1, <- app_assoc. }
    rewrite (run_bindE_Ok _ _ _ _ _ Hdelete).
    destruct (IH s2) as (evs & Hcalls & Hdec).
    eexists. split; [|by apply Decommissioned_next].
    by rewrite Hcalls, Hcalls2, Hcalls1, <- !app_assoc.
Qed.
End ReconcileProperties.

Lemma Decommissioned_delete_after_drain orphaned evs r :
  Decommissioned orphaned evs r →
  ∀ i stackName o,
    evs !! i = Some (CallDeleteStack stackName, o) →
    ∃ j stack,
      i = S j ∧
      evs !! j = Some (CallScalePool (nodePoolStackToNodePool stack) 0, None) ∧
      stack ∈ orphaned ∧
      stackName = aws_StringValue (cloudformation.StackName stack).
Proof.
  induction 1 as [|stack rest e|stack rest e|stack rest evs r _ IH];
    intros i stackName o Hi.
  - done.
  - by destruct i as [|[|]].
  - destruct i as [|[|[|]]]; try done. injection Hi as <- <-.
    exists 0, stack. split_and!; auto. by left.
  - destruct i as [|[|i]]; [done| |].
    + injection Hi as <- <-. exists 0, stack. split_and!; auto. by left.
    + destruct (IH i stackName o Hi) as (j & stack' & -> & Hj & Hin & ->).
      exists (S (S j)), stack'. split_and!; auto. by right.
Qed.

Lemma Decommissioned_drain_failure orphaned evs r :
  Decommissioned orphaned evs r →
  ∀ i nodePool replicas e,
    evs !! i = Some (CallScalePool nodePool replicas, Some e) →
    r = Err e ∧ length evs = S i ∧
    ∃ stack, stack ∈ orphaned ∧ nodePool = nodePoolStackToNodePool stack.
Proof.
  induction 1 as [|stack rest e|stack rest e|stack rest evs r _ IH];
    intros i nodePool replicas e' Hi.
  - done.
  - destruct i as [|[|]]; try done. injection Hi as <- <- <-.
    split_and!; auto. exists stack. split; [by left | done].
  - by destruct i as [|[|[|]]].
  - destruct i as [|[|i]]; [done..|].
    destruct (IH i nodePool replicas e' Hi) as (-> & Hlen & stack' & Hin & ->).
    split_and!; [done | by cbn [length]; rewrite Hlen |].
    exists stack'. split; [by right | done].
Qed.

Lemma Decommissioned_all orphaned evs :
  Decommissioned orphaned evs (Ok tt) →
  ∀ stack, stack ∈ orphaned →
    ∃ i, evs !! i = Some (CallScalePool (nodePoolStackToNodePool stack) 0, None) ∧
         evs !! S i =
           Some (CallDeleteStack (aws_StringValue (cloudformation.StackName stack)),
                 None).
Proof.
  intros Hdec. remember (Ok tt) as r eqn:Hr.
  induction Hdec as [|stack rest e|stack rest e|stack rest evs r _ IH];
    intros stack' Hin; try done.
  - by apply elem_of_nil in Hin.
  - apply elem_of_cons in Hin as [->|Hin].
    + by exists 0.
    + destruct (IH Hr stack' Hin) as (i & Hi & HSi). by exists (S (S i)).
Qed.

Lemma readTag_Name (nodePool : api.NodePool) (tag : cloudformation.Tag) :
  aws_StringValue (cloudformation.Key tag) ≠ nodePoolTagKey →
  api.Name (readTag nodePool tag) = api.Name nodePool.
Proof.
  intros Hkey. unfold readTag.
  destruct (String.eqb_spec (aws_StringValue (cloudformation.Key tag)) nodePoolTagKey);
    [done|].
  by destruct (String.eqb _ nodePoolProfileTagKey).
Qed.

Lemma foldl_readTag_Name (tags : list cloudformation.Tag) (nodePool : api.NodePool) :
  (∀ tag, tag ∈ tags → aws_StringValue (cloudformation.Key tag) ≠ nodePoolTagKey) →
  api.Name (foldl readTag nodePool tags) = api.Name nodePool.
Proof.
  revert nodePool. induction tags as [|tag tags IH]; intros np Htags; [done|].
  cbn [foldl]. rewrite IH.
  - apply readTag_Name, Htags. by left.
  - intros tag' Hin. apply Htags. by right.
Qed.

(** Without a name tag the decoded name is the empty string. *)
Lemma noNameTag_decode (stack : cloudformation.Stack) :
  noNameTag stack → api.Name (nodePoolStackToNodePool stack) = "".
Proof. intros Htags. by apply (foldl_readTag_Name _ api.zero). Qed.

Section ReconcileTheorems.
Context `{Platform} {W : Type} `{Cloud W}.

(** The calls and the result of [Reconcile], by the outcome of the listing. *)
Lemma Reconcile_run (n : AWSNodePoolProvisioner) (s : St W) :
  let res := run (Reconcile n) s in
  match (ListStacks (reconcileTags n) (world s)).1 with
  | Err e =>
      res.1 = Err e ∧
      calls res.2 = calls s ++ [(CallListStacks (reconcileTags n), Some e)]
  | Ok nodePoolStacks =>
      ∃ evs,
        calls res.2 = calls s ++ (CallListStacks (reconcileTags n), None) :: evs ∧
        Decommissioned
          (orphanedNodePoolStacks nodePoolStacks (api.NodePools (Cluster n)))
          evs res.1
  end.
Proof.
  unfold Reconcile. cbv zeta.
  destruct (run (callWorld (CallListStacks (reconcileTags n))
                           (ListStacks (reconcileTags n))) s)
    as [[nodePoolStacks|e] s1] eqn:Hlist;
    pose proof (callWorld_inv _ _ _ _ _ Hlist) as (Hw & Hcalls & _);
    rewrite Hw; cbn [fst].
  - rewrite (run_bindE_Ok _ _ _ _ _ Hlist).
    destruct (decommission_run
                (orphanedNodePoolStacks nodePoolStacks (api.NodePools (Cluster n))) s1)
      as (evs & Hcalls' & Hdec).
    exists evs. split; [|done].
    by rewrite Hcalls', Hcalls, <- app_assoc.
  - by rewrite (run_bindE_Err _ _ _ _ _ Hlist).
Qed.

(** C3: in the calls [evs] that a run of [Reconcile] makes, every call of
    [DeleteStack] comes right after a call [ScalePool(pool, 0)] that returned
    nil, for an orphaned stack of the listing whose decoded pool is [pool]
    and whose name is the one deleted; and a call of [ScalePool] that fails
    is the last call of the run, so that no [DeleteStack] follows it and the
    stack stays, and its error is what [Reconcile] returns. *)
Theorem Reconcile_drain_before_delete (n : AWSNodePoolProvisioner) (s : St W) :
  let res := run (Reconcile n) s in
  ∃ evs,
    calls res.2 = calls s ++ evs ∧
    (∀ i stackName o,
       evs !! i = Some (CallDeleteStack stackName, o) →
       ∃ j stack nodePoolStacks,
         i = S j ∧
         evs !! j = Some (CallScalePool (nodePoolStackToNodePool stack) 0, None) ∧
         stackName = aws_StringValue (cloudformation.StackName stack) ∧
         (ListStacks (reconcileTags n) (world s)).1 = Ok nodePoolStacks ∧
         stack ∈ orphanedNodePoolStacks nodePoolStacks (api.NodePools (Cluster n))) ∧
    (∀ i nodePool replicas e,
       evs !! i = Some (CallScalePool nodePool replicas, Some e) →
       res.1 = Err e ∧ length evs = S i ∧
       ∀ stackName o, (CallDeleteStack stackName, o) ∉ drop i evs).
Proof.
  pose proof (Reconcile_run n s) as Hrun. cbv zeta in *.
  destruct (ListStacks (reconcileTags n) (world s)).1 as [nodePoolStacks|e0].
  - destruct Hrun as (evs & Hcalls & Hdec).
    exists ((CallListStacks (reconcileTags n), None) :: evs).
    split_and!; [done| |].
    + intros [|i] stackName o Hi; [done|].
      destruct (Decommissioned_delete_after_drain _ _ _ Hdec i stackName o Hi)
        as (j & stack & -> & Hj & Hin & ->).
      by exists (S j), stack, nodePoolStacks.
    + intros [|i] nodePool replicas e Hi; [done|].
      destruct (Decommissioned_drain_failure _ _ _ Hdec i nodePool replicas e Hi)
        as (Hres & Hlen & _).
      split_and!; [done | by cbn [length]; rewrite Hlen |].
      intros stackName o [k Hk]%list_elem_of_lookup.
      rewrite lookup_drop in Hk. destruct k as [|k].
      * rewrite Nat.add_0_r in Hk. congruence.
      * rewrite lookup_ge_None_2 in Hk; [done|]. cbn [length]. lia.
  - destruct Hrun as (Hres & Hcalls). eexists. split_and!; [done|..].
    + by intros [|[|]] ???.
    + by intros [|[|]] ????.
Qed.

(** The loop comes to every orphan of its list unless a call before it
    failed. *)
Lemma Decommissioned_at orphaned evs r k stack :
  Decommissioned orphaned evs r →
  orphaned !! k = Some stack →
  decommissionedAt k stack evs r.
Proof.
  unfold decommissionedAt. intros Hdec. revert k.
  induction Hdec as [|stack0 rest e|stack0 rest e|stack0 rest evs r _ IH];
    intros k Hk.
  - done.
  - destruct k as [|k].
    + injection Hk as <-. right. left. by exists e.
    + left. exists 0, (CallScalePool (nodePoolStackToNodePool stack0) 0), e.
      split_and!; [lia|done..].
  - destruct k as [|k].
    + injection Hk as <-. right. right. split; [done|]. left. by exists e.
    + left.
      exists 1, (CallDeleteStack (aws_StringValue (cloudformation.StackName stack0))), e.
      split_and!; [lia|done..].
  - destruct k as [|k].
    + injection Hk as <-. right. right. split; [done|]. by right.
    + cbn [lookup list_lookup] in Hk.
      replace (2 * S k) with (S (S (2 * k))) by lia.
      destruct (IH k Hk) as [(j & c & e & Hj & Hev & Hr)|[(e & Hev & Hr)|(Hev & Hdel)]].
      * left. exists (S (S j)), c, e. split_and!; [lia|done..].
      * right. left. by exists e.
      * right. right. split; [done|].
        destruct Hdel as [(e & Hev' & Hr)|Hev']; [left; by exists e | by right].
Qed.

(** C10: a listed stack without a name tag decodes to a pool with the empty
    name; it is orphaned exactly when no desired pool has the empty name, and
    then [Reconcile], after the listing, comes to it in its loop: unless a
    call for an orphan listed before it failed, [Reconcile] calls [ScalePool]
    on the decoded pool with 0 replicas and, when that call returns nil,
    [DeleteStack] on the name of the stack right after it. *)
Theorem nameless_stack_decommissioned (n : AWSNodePoolProvisioner) (s : St W)
    (nodePoolStacks : list cloudformation.Stack) (stack : cloudformation.Stack) :
  (ListStacks (reconcileTags n) (world s)).1 = Ok nodePoolStacks →
  stack ∈ nodePoolStacks →
  noNameTag stack →
  let res := run (Reconcile n) s in
  let orphaned := orphanedNodePoolStacks nodePoolStacks (api.NodePools (Cluster n)) in
  api.Name (nodePoolStackToNodePool stack) = "" ∧
  (stack ∈ orphaned ↔ "" ∉ api.Name <$> api.NodePools (Cluster n)) ∧
  ("" ∉ api.Name <$> api.NodePools (Cluster n) →
   ∃ evs k,
     orphaned !! k = Some stack ∧
     calls res.2 = calls s ++ (CallListStacks (reconcileTags n), None) :: evs ∧
     decommissionedAt k stack evs res.1).
Proof.
  intros Hlist Hin Htags res orphaned.
  pose proof (noNameTag_decode stack Htags) as Hname.
  assert (stack ∈ orphaned ↔ "" ∉ api.Name <$> api.NodePools (Cluster n)) as Horphan.
  { unfold orphaned. rewrite orphanedNodePoolStacks_filter, list_elem_of_filter, Hname.
    tauto. }
  split_and!; [done..|].
  intros Hempty.
  pose proof (Reconcile_run n s) as Hrun. cbv zeta in Hrun. rewrite Hlist in Hrun.
  destruct Hrun as (evs & Hcalls & Hdec). fold res in Hcalls, Hdec.
  apply Horphan, list_elem_of_lookup in Hempty as [k Hk].
  exists evs, k. split_and!; [done..|].
  by apply (Decommissioned_at orphaned).
Qed.
End ReconcileTheorems.

(** With the in-memory world: the listing goes through, the drain of the
    orphaned stack fails; [Reconcile] returns the drain's error, has not
    called [DeleteStack], and the stack is still there. *)
Example Reconcile_drain_fails :
  let s := Example.live [Example.oldStack] [None; Some (errorString "drain timed out")] in
  let res := run (Reconcile Example.provisioner) s in
  res.1 = Err (errorString "drain timed out") ∧
  calls res.2 =
    [ (CallListStacks (reconcileTags Example.provisioner), None);
      (CallScalePool (nodePoolStackToNodePool Example.oldStack) 0,
       Some (errorString "drain timed out")) ] ∧
  Mem.stacks (world res.2) = [Example.oldStack].
Proof. vm_compute. by repeat split. Qed.

(** Without faults the nameless stack is drained and deleted. *)
Example Reconcile_nameless_stack :
  let s := Example.live [Example.namelessStack] [] in
  let res := run (Reconcile Example.provisioner) s in
  res.1 = Ok tt ∧
  calls res.2 =
    [ (CallListStacks (reconcileTags Example.provisioner), None);
      (CallScalePool api.zero 0, None);
      (CallDeleteStack "nodepool-legacy-aws-123-eu", None) ] ∧
  Mem.stacks (world res.2) = [].
Proof. vm_compute. by repeat split. Qed.

Lemma nameless_stack_decommissioned_witness :
  let n := Example.provisioner in
  let s := Example.live [Example.oldStack; Example.namelessStack] [] in
  let stack := Example.namelessStack in
  let res := run (Reconcile n) s in
  api.Name (nodePoolStackToNodePool stack) = "" ∧
  stack ∈ orphanedNodePoolStacks [Example.oldStack; stack] (api.NodePools (Cluster n)) ∧
  ∃ evs,
    calls res.2 = calls s ++ (CallListStacks (reconcileTags n), None) :: evs ∧
    evs !! 2 = Some (CallScalePool api.zero 0, None) ∧
    evs !! 3 = Some (CallDeleteStack "nodepool-legacy-aws-123-eu", None).
Proof.
  intros n s stack res.
  assert ("" ∉ api.Name <$> api.NodePools (Cluster n)) as Hempty.
  { intros Hin. cbn in Hin.
    repeat (apply elem_of_cons in Hin as [Hin|Hin]; [discriminate|]).
    by apply elem_of_nil in Hin. }
  destruct (nameless_stack_decommissioned (W := Mem.World) n s
              [Example.oldStack; stack] stack) as (Hname & Horphan & Hloop).
  - vm_compute. reflexivity.
  - apply elem_of_cons. right. apply list_elem_of_singleton. reflexivity.
  - intros tag Hin. cbn [stack Example.namelessStack cloudformation.Tags] in Hin.
    repeat (apply elem_of_cons in Hin as [->|Hin]); try (vm_compute; discriminate).
    by apply elem_of_nil in Hin.
  - split_and!; [exact Hname | by apply Horphan |].
    destruct (Hloop Hempty) as (evs & k & Hk & Hcalls & Hat).
    exists evs. split; [exact Hcalls|].
    assert ((run (Reconcile n) s).1 = Ok tt) as Hres by (vm_compute; reflexivity).
    assert (k = 1) as ->.
    { apply (f_equal (from_option (λ st, length (cloudformation.Tags st)) 0)) in Hk.
      destruct k as [|[|k]]; [|reflexivity|]; vm_compute in Hk; discriminate Hk. }
    destruct Hat as [(j & c & e & _ & _ & Hr)|[(e & _ & Hr)|(Hdrain & Hdelete)]];
      [congruence..|].
    destruct Hdelete as [(e & _ & Hr)|Hdelete]; [congruence|].
    split; [exact Hdrain | exact Hdelete].
Defined.

(** ** Templates: a missing key is an error *)

Lemma evalFieldChain_app mk dot (path rest : list string) :
  template.evalFieldChain mk dot (path ++ rest) =
  match template.evalFieldChain mk dot path with
  | Ok v => template.evalFieldChain mk v rest
  | Err e => Err e
  end.
Proof.
  revert dot. induction path as [|fieldName path IH]; intros dot; [done|].
  cbn [app template.evalFieldChain].
  destruct (template.evalField mk dot fieldName); [apply IH | done].
Qed.

Lemma evalFieldChain_missing dot ident :
  refersToMissingKey dot ident →
  ∃ e, template.evalFieldChain template.mapError dot ident = Err e.
Proof.
  intros (path & key & rest & entries & -> & Hpath & Hkey).
  rewrite evalFieldChain_app, Hpath. cbn [template.evalFieldChain template.evalField].
  rewrite Hkey. eauto.
Qed.

(** An action that fails makes the execution fail, wherever it stands. *)
Lemma walk_failing_action fmt mk dot (nodes : list template.Node) ident e out :
  template.FieldNode ident ∈ nodes →
  template.evalFieldChain mk dot ident = Err e →
  ∃ e', template.walk fmt mk dot nodes out = Err e'.
Proof.
  intros Hin Hident. revert out.
  induction nodes as [|node nodes IH]; intros out.
  - by apply elem_of_nil in Hin.
  - apply elem_of_cons in Hin as [<-|Hin].
    + cbn [template.walk template.walkNode]. rewrite Hident. eauto.
    + cbn [template.walk].
      destruct (template.walkNode fmt mk dot node out); [by apply IH | eauto].
Qed.








Section TemplateTheorems.
Context `{Platform} {W : Type} `{Cloud W}.

Lemma renderTemplate_run (templateFile : string)
    (data : gmap string string → template.Value) (s : St W) :
  run (renderTemplate templateFile data) s =
  (match ioutil_ReadFile templateFile (world s) with
   | Ok content =>
       match template_Parse templateFile content with
       | Ok tree =>
           template.walk fmt_Sprint template.mapError (data (values s)) tree ""
       | Err e => Err e
       end
   | Err e => Err e
   end, s).
Proof.
  unfold renderTemplate. rewrite run_bindE, run_readWorld. cbn [fst snd].
  destruct (ioutil_ReadFile templateFile (world s)) as [content|e]; [|done].
  rewrite run_bindE. cbn [run fst snd].
  unfold template_ParseInto. cbn [template.name template.Option template.New].
  change (template.name _) with templateFile.
  destruct (template_Parse templateFile content) as [tree|e]; [|done].
  by rewrite run_readValues.
Qed.

(** An action that fails under [missingkey=error] makes [renderTemplate]
    fail. *)
Lemma renderTemplate_failing_action (templateFile content : string)
    (tree : list template.Node) (ident : list string) (e : error)
    (data : gmap string string → template.Value) (s : St W) :
  ioutil_ReadFile templateFile (world s) = Ok content →
  template_Parse templateFile content = Ok tree →
  template.FieldNode ident ∈ tree →
  template.evalFieldChain template.mapError (data (values s)) ident = Err e →
  ∃ e', (run (renderTemplate templateFile data) s).1 = Err e'.
Proof.
  intros Hread Hparse Hin Hident.
  rewrite renderTemplate_run, Hread, Hparse. cbn [fst].
  by apply (walk_failing_action _ _ _ _ ident e).
Qed.

(** When the template of the file holds, at its top, an action whose field
    chain asks a map of the data for a key that is not in it,
    [renderTemplate] returns an error; it returns no text at all. *)
Lemma renderTemplate_missing_key (templateFile content : string)
    (tree : list template.Node) (ident : list string)
    (data : gmap string string → template.Value) (s : St W) :
  ioutil_ReadFile templateFile (world s) = Ok content →
  template_Parse templateFile content = Ok tree →
  template.FieldNode ident ∈ tree →
  refersToMissingKey (data (values s)) ident →
  ∃ e, (run (renderTemplate templateFile data) s).1 = Err e.
Proof.
  intros Hread Hparse Hin Hmissing.
  destruct (evalFieldChain_missing _ _ Hmissing) as [e He].
  by apply (renderTemplate_failing_action _ content tree ident e).
Qed.


(** The case of the [Values] map of the stack parameters. *)
Lemma renderTemplate_missing_value (n : AWSNodePoolProvisioner)
    (nodePool : api.NodePool) (userData templateFile content key : string)
    (tree : list template.Node) (rest : list string) (s : St W) :
  ioutil_ReadFile templateFile (world s) = Ok content →
  template_Parse templateFile content = Ok tree →
  template.FieldNode ("Values" :: key :: rest) ∈ tree →
  values s !! key = None →
  ∃ e, (run (renderTemplate templateFile (stackParams n nodePool userData)) s).1
       = Err e.
Proof.
  intros Hread Hparse Hin Hkey.
  apply (renderTemplate_failing_action _ content tree ("Values" :: key :: rest)
           (errorString ("map has no entry for key " +:+ strconv_Quote key)));
    try done.
  cbn. by rewrite Hkey.
Qed.
End TemplateTheorems.

(** The template [price={{.Values.spot_price}}] on a map without
    [spot_price]: [renderTemplate] fails, where the option [missingkey=zero]
    would have put the empty string. *)
Example renderTemplate_strict :
  let files : gmap string Mem.File :=
    {[ "/cfg/worker/stack.yaml" := Mem.Regular "price={{.Values.spot_price}}" ]} in
  let s : St Mem.World := mkSt ∅ (Mem.mkWorld files ∅ [] []) [] in
  let data := stackParams Example.provisioner Example.poolA "" in
  (run (renderTemplate "/cfg/worker/stack.yaml" data) s).1
    = Err (errorString ("map has no entry for key " +:+ strconv_Quote "spot_price")) ∧
  template.Execute fmt_Sprint
    (template.mkTemplate "stack.yaml" template.mapZeroValue
       [template.TextNode "price="; template.FieldNode ["Values"; "spot_price"]])
    (data ∅) = Ok "price=".
Proof. vm_compute. by split. Qed.



Lemma renderTemplate_missing_key_witness :
  let files : gmap string Mem.File :=
    {[ "/cfg/worker/stack.yaml" := Mem.Regular "price={{.Values.spot_price}}" ]} in
  let s : St Mem.World := mkSt ∅ (Mem.mkWorld files ∅ [] []) [] in
  let data := stackParams Example.provisioner Example.poolA "" in
  ∃ e, (run (renderTemplate "/cfg/worker/stack.yaml" data) s).1 = Err e.
Proof.
  intros files s data.
  apply (renderTemplate_missing_key (W := Mem.World)
           "/cfg/worker/stack.yaml" "price={{.Values.spot_price}}"
           [template.TextNode "price="; template.FieldNode ["Values"; "spot_price"]]
           ["Values"; "spot_price"] data s).
  - vm_compute. reflexivity.
  - vm_compute. reflexivity.
  - apply elem_of_cons. right. apply elem_of_cons. left. reflexivity.
  - exists ["Values"], "spot_price", [], ∅. split_and!; reflexivity.
Defined.

(** ** What a single pool's provisioning does to the shared map *)

Section Sequential.
Context `{Platform} {W : Type} `{Cloud W}.

Lemma keepsValues_Ret {A} (a : A) : keepsValues (W := W) (Ret a).
Proof. by intros s. Qed.

Lemma keepsValues_bindE {A B} (p : Proc W (result A))
    (f : A → Proc W (result B)) :
  keepsValues p → (∀ a, keepsValues (f a)) → keepsValues (bindE p f).
Proof.
  intros Hp Hf s. rewrite run_bindE.
  destruct (run p s).1 as [a|e]; [|apply Hp]. by rewrite Hf, Hp.
Qed.

Lemma keepsValues_callWorld {A} (c : Call) (f : W → result A * W) :
  keepsValues (callWorld c f).
Proof. intros s. by rewrite run_callWorld. Qed.

Lemma keepsValues_readWorld {A} (f : W → result A) : keepsValues (readWorld f).
Proof. intros s. by rewrite run_readWorld. Qed.

Lemma readsOnly_renderTemplate templateFile data :
  readsOnly (W := W) (renderTemplate templateFile data).
Proof. intros s. by rewrite renderTemplate_run. Qed.

Lemma keepsValues_renderTemplate templateFile data :
  keepsValues (W := W) (renderTemplate templateFile data).
Proof. intros s. by rewrite readsOnly_renderTemplate. Qed.

Lemma keepsValues_uploadUserDataToS3 userData bucket :
  keepsValues (W := W) (uploadUserDataToS3 userData bucket).
Proof.
  unfold uploadUserDataToS3.
  apply keepsValues_bindE; [apply keepsValues_callWorld | intros _].
  apply keepsValues_bindE; [apply keepsValues_callWorld | intros _].
  apply keepsValues_Ret.
Qed.

Lemma keepsValues_prepareUserData n clcPath config :
  keepsValues (W := W) (prepareUserData n clcPath config).
Proof.
  unfold prepareUserData.
  apply keepsValues_bindE; [apply keepsValues_renderTemplate | intros rendered].
  destruct (clcToIgnition rendered); [|apply keepsValues_Ret].
  apply keepsValues_bindE; [apply keepsValues_uploadUserDataToS3 | intros uri].
  apply keepsValues_Ret.
Qed.

Lemma keepsValues_generateNodePoolStackTemplate n nodePool :
  keepsValues (W := W) (generateNodePoolStackTemplate n nodePool).
Proof.
  unfold generateNodePoolStackTemplate.
  apply keepsValues_bindE; [apply keepsValues_readWorld | intros fi].
  destruct (negb (IsDir fi)); [apply keepsValues_Ret|].
  apply keepsValues_bindE; [apply keepsValues_prepareUserData | intros userData].
  apply keepsValues_renderTemplate.
Qed.

(** After the pricing, [provisionNodePool] leaves the shared map alone. *)
Lemma keepsValues_afterPricing n nodePool :
  keepsValues (W := W)
    (do template <- generateNodePoolStackTemplate n nodePool ;
     let stackName := stackNameOf n nodePool in
     let tags := nodePoolStackTags (api.ID (Cluster n)) nodePool in
     do _ <- callWorld (CallApplyStack stackName template tags)
                       (applyStack stackName template "" tags true) ;
     do _ <- callWorld (CallWaitForStack stackName) (waitForStack stackName) ;
     Ret (Ok tt)).
Proof.
  apply keepsValues_bindE;
    [apply keepsValues_generateNodePoolStackTemplate | intros template].
  apply keepsValues_bindE; [apply keepsValues_callWorld | intros _].
  apply keepsValues_bindE; [apply keepsValues_callWorld | intros _].
  apply keepsValues_Ret.
Qed.

(** [provisionNodePool] by the outcome of its [switch]. *)
Lemma provisionNodePool_run n (nodePool : api.NodePool) (s : St W) :
  let res := run (provisionNodePool n nodePool) s in
  let cleared := <["spot_price" := ""]> (values s) in
  match run (resolveSpotPrice n nodePool) (mkSt cleared (world s) (calls s)) with
  | (Ok _, s1) => values res.2 = values s1
  | (Err e, s1) => res = (Err e, s1)
  end.
Proof.
  cbv zeta. unfold provisionNodePool.
  rewrite (run_bindE_Ok _ _ _ _ _ (run_setValue "spot_price" "" s)).
  destruct (run (resolveSpotPrice n nodePool) _) as [[[]|e] s1] eqn:Hprice.
  - rewrite (run_bindE_Ok _ _ _ _ _ Hprice). apply keepsValues_afterPricing.
  - by rewrite (run_bindE_Err _ _ _ _ _ Hprice).
Qed.

(** C5: by the discount strategy of the pool, [provisionNodePool] leaves
    the on-demand price of the table in [values["spot_price"]]
    ([SpotMaxPrice], instance type and region in the table), leaves the
    empty string there ([None]), or returns an error before any call to the
    cloud: unknown instance type, no price for the region, or any other
    strategy. *)
Theorem spot_price_resolution (n : AWSNodePoolProvisioner)
    (nodePool : api.NodePool) (s : St W) :
  let res := run (provisionNodePool n nodePool) s in
  let strategy := api.DiscountStrategy nodePool in
  let instanceType := api.InstanceType nodePool in
  let region := api.Region (Cluster n) in
  (∀ instanceInfo onDemandPrice,
     strategy = discountStrategySpotMaxPrice →
     InstanceInfo !! instanceType = Some instanceInfo →
     awsExt.Pricing instanceInfo !! region = Some onDemandPrice →
     values res.2 = <["spot_price" := onDemandPrice]> (values s)) ∧
  (strategy = discountStrategyNone →
     values res.2 = <["spot_price" := ""]> (values s)) ∧
  (strategy = discountStrategySpotMaxPrice →
     InstanceInfo !! instanceType = None →
     res.1 = Err (fmt_Errorf ("unknown instance type " +:+ instanceType)) ∧
     calls res.2 = calls s) ∧
  (∀ instanceInfo,
     strategy = discountStrategySpotMaxPrice →
     InstanceInfo !! instanceType = Some instanceInfo →
     awsExt.Pricing instanceInfo !! region = None →
     res.1 = Err (fmt_Errorf ("no price data for region " +:+ region
                              +:+ ", instance type " +:+ instanceType)) ∧
     calls res.2 = calls s) ∧
  (strategy ≠ discountStrategyNone →
     strategy ≠ discountStrategySpotMaxPrice →
     res.1 = Err (fmt_Errorf ("unsupported node pool discount_strategy " +:+ strategy)) ∧
     calls res.2 = calls s).
Proof.
  pose proof (provisionNodePool_run n nodePool s) as Hrun. cbv zeta in *.
  unfold resolveSpotPrice in Hrun.
  pose proof discountStrategy_distinct as Hdistinct.
  destruct (String.eqb_spec (api.DiscountStrategy nodePool) discountStrategyNone)
    as [Hnone|Hnone];
    [|destruct (String.eqb_spec (api.DiscountStrategy nodePool)
                  discountStrategySpotMaxPrice) as [Hspot|Hspot]].
  - cbn [run] in Hrun. split_and!; try congruence.
    intros _. by rewrite Hrun.
  - split_and!; try congruence.
    + intros info price _ Hinfo Hprice. rewrite Hinfo, Hprice, run_setValue in Hrun.
      rewrite Hrun. cbn [values]. apply insert_insert_eq.
    + intros _ Hinfo. rewrite Hinfo in Hrun. cbn [run] in Hrun. by rewrite Hrun.
    + intros info _ Hinfo Hprice. rewrite Hinfo, Hprice in Hrun. cbn [run] in Hrun.
      by rewrite Hrun.
  - cbn [run] in Hrun. split_and!; try congruence.
    intros _ _. by rewrite Hrun.
Qed.
End Sequential.

Lemma spot_price_resolution_witness :
  let n := Example.provisioner in
  let s := Example.start in
  let unknown := api.mkNodePool "c" "worker" "x9.huge" "spot_max_price" in
  let reserved := api.mkNodePool "d" "worker" "m5.large" "reserved" in
  let elsewhere :=
    mkProvisioner "bucket" "/cfg" (api.mkCluster "aws:123:us" "us-east-1" []) in
  values (run (provisionNodePool n Example.poolA) s).2
    = <["spot_price" := "0.115"]> (values s) ∧
  values (run (provisionNodePool n Example.poolB) s).2
    = <["spot_price" := ""]> (values s) ∧
  (run (provisionNodePool n unknown) s).1
    = Err (fmt_Errorf "unknown instance type x9.huge") ∧
  (run (provisionNodePool elsewhere Example.poolA) s).1
    = Err (fmt_Errorf "no price data for region us-east-1, instance type m5.large") ∧
  (run (provisionNodePool n reserved) s).1
    = Err (fmt_Errorf "unsupported node pool discount_strategy reserved").
Proof.
  intros n s unknown reserved elsewhere.
  pose (info := awsExt.mkInfo {[ "eu-central-1" := "0.115" ]}).
  split_and!.
  - apply (proj1 (spot_price_resolution (W := Mem.World) n Example.poolA s)
             info "0.115"); reflexivity.
  - apply (proj1 (proj2 (spot_price_resolution (W := Mem.World) n Example.poolB s)));
      reflexivity.
  - apply (proj1 (proj2 (proj2 (spot_price_resolution (W := Mem.World) n unknown s))));
      reflexivity.
  - apply (proj1 (proj2 (proj2 (proj2
             (spot_price_resolution (W := Mem.World) elsewhere Example.poolA s))))
             info); reflexivity.
  - apply (proj2 (proj2 (proj2 (proj2
             (spot_price_resolution (W := Mem.World) n reserved s)))));
      discriminate.
Defined.

(** ** The profile directory *)

Section ProfileDirectory.
Context `{Platform} {W : Type} `{Cloud W}.

(** C9, amended: the profile path is [path.Join(cfgBaseDir, profile)]. When
    [os.Stat] fails on it, as it does when nothing is there, generation
    fails with the error of [os.Stat], unchanged, before anything else is
    done. When the path is there and is not a directory, generation fails
    with an error whose text names the profile. *)
Theorem generateNodePoolStackTemplate_profile (n : AWSNodePoolProvisioner)
    (nodePool : api.NodePool) (s : St W) :
  let nodePoolProfilesPath := path_Join [cfgBaseDir n; api.Profile nodePool] in
  let res := run (generateNodePoolStackTemplate n nodePool) s in
  (∀ e, os_Stat nodePoolProfilesPath (world s) = Err e → res = (Err e, s)) ∧
  (∀ fi, os_Stat nodePoolProfilesPath (world s) = Ok fi → IsDir fi = false →
     res = (Err (fmt_Errorf ("failed to find configuration for node pool profile '"
                             +:+ api.Profile nodePool +:+ "'")), s) ∧
     ∀ e, res.1 = Err e → Contains (Error e) (api.Profile nodePool)).
Proof.
  cbv zeta. unfold generateNodePoolStackTemplate. split.
  - intros e Hstat. apply run_bindE_Err. by rewrite run_readWorld, Hstat.
  - intros fi Hstat Hdir.
    rewrite (run_bindE_Ok _ _ s s fi) by (by rewrite run_readWorld, Hstat).
    rewrite Hdir. cbn [negb run]. split; [done|].
    intros e [= <-]. cbn [Error fmt_Errorf].
    apply Contains_append_r, Contains_append_l, Contains_refl.
Qed.
End ProfileDirectory.

(** C9 as stated fails: the base directory [/cfg] has no profile [worker/].
    Generation fails with the error of [os.Stat] on the cleaned path
    [/cfg/worker]; this is not the error that names the profile, and its
    text does not hold the profile [worker/]. *)
Lemma missing_profile_stat_error :
  let n := Example.provisioner in
  let nodePool := api.mkNodePool "a" "worker/" "m5.large" "none" in
  let s : St Mem.World := mkSt ∅ Mem.world0 [] in
  let res := run (generateNodePoolStackTemplate n nodePool) s in
  Mem.files (world s) !! path_Join [cfgBaseDir n; api.Profile nodePool] = None ∧
  res.1 = Err (PathError "stat" "/cfg/worker" ENOENT) ∧
  res.1 ≠ Err (fmt_Errorf
                 "failed to find configuration for node pool profile 'worker/'") ∧
  Error (PathError "stat" "/cfg/worker" ENOENT)
    = "stat /cfg/worker: no such file or directory" ∧
  ¬ Contains (Error (PathError "stat" "/cfg/worker" ENOENT)) (api.Profile nodePool).
Proof.
  cbv zeta. split_and!; try (vm_compute; done).
  rewrite <- strings_Contains_spec. vm_compute. discriminate.
Qed.

Lemma generateNodePoolStackTemplate_profile_witness :
  let n := Example.provisioner in
  let missing := api.mkNodePool "a" "absent" "m5.large" "none" in
  let file := api.mkNodePool "b" "worker/stack.yaml" "m5.large" "none" in
  run (generateNodePoolStackTemplate n missing) Example.start
    = (Err (PathError "stat" "/cfg/absent" ENOENT), Example.start) ∧
  run (generateNodePoolStackTemplate n file) Example.start
    = (Err (fmt_Errorf
         "failed to find configuration for node pool profile 'worker/stack.yaml'"),
       Example.start).
Proof.
  intros n missing file. split.
  - apply (proj1 (generateNodePoolStackTemplate_profile (W := Mem.World)
                    n missing Example.start)).
    vm_compute. reflexivity.
  - apply (proj2 (generateNodePoolStackTemplate_profile (W := Mem.World)
                    n file Example.start) (mkFileInfo false)).
    + vm_compute. reflexivity.
    + reflexivity.
Defined.

(** ** Content-addressed upload *)

Section Upload.
Context `{Platform} {W : Type} `{Cloud W}.

(** A publish that succeeds has created the bucket and uploaded the data
    under the key made of its digest, and returns the URI of that key. *)
Lemma uploadUserDataToS3_Ok (userData bucketName uri : string) (s s1 : St W) :
  run (uploadUserDataToS3 userData bucketName) s = (Ok uri, s1) →
  let objectName := hex_EncodeToString (sha512_Sum userData) +:+ ".userdata" in
  uri = "s3://" +:+ bucketName +:+ "/" +:+ objectName ∧
  ∃ w, createS3Bucket bucketName (world s) = (Ok tt, w) ∧
       s3Uploader_Upload bucketName objectName userData w = (Ok tt, world s1).
Proof.
  unfold uploadUserDataToS3. cbv zeta.
  destruct (run (callWorld (CallCreateS3Bucket bucketName)
                           (createS3Bucket bucketName)) s)
    as [[[]|e] sa] eqn:Hcreate;
    [rewrite (run_bindE_Ok _ _ _ _ _ Hcreate)
    |by rewrite (run_bindE_Err _ _ _ _ _ Hcreate)].
  apply callWorld_inv in Hcreate as (Hcreate & _ & _).
  match goal with
  | |- context [callWorld ?c ?f] =>
      destruct (run (callWorld c f) sa) as [[[]|e] sb] eqn:Hupload
  end;
    [rewrite (run_bindE_Ok _ _ _ _ _ Hupload)
    |by rewrite (run_bindE_Err _ _ _ _ _ Hupload)].
  apply callWorld_inv in Hupload as (Hupload & _ & _).
  cbn [run]. intros [= <- <-]. split; [done|]. by exists (world sa).
Qed.

(** When both storage calls go through, so does the publish. *)
Lemma uploadUserDataToS3_calls (userData bucketName : string) (s : St W) w w' :
  let objectName := hex_EncodeToString (sha512_Sum userData) +:+ ".userdata" in
  createS3Bucket bucketName (world s) = (Ok tt, w) →
  s3Uploader_Upload bucketName objectName userData w = (Ok tt, w') →
  ∃ s1, run (uploadUserDataToS3 userData bucketName) s
          = (Ok ("s3://" +:+ bucketName +:+ "/" +:+ objectName), s1) ∧
        world s1 = w'.
Proof.
  cbv zeta. intros Hcreate Hupload. unfold uploadUserDataToS3. cbv zeta.
  rewrite run_bindE, run_callWorld, Hcreate. cbn [fst snd].
  rewrite run_bindE, run_callWorld. cbn [world]. rewrite Hupload. cbn [fst snd run].
  eauto.
Qed.
End Upload.

(** The object store of the in-memory world. *)
Lemma Mem_nextFault_buckets w :
  Mem.buckets (Mem.nextFault w).2 = Mem.buckets w.
Proof. unfold Mem.nextFault. by destruct (Mem.faults w). Qed.

Lemma Mem_createBucket_Ok bucket w w' :
  Mem.createBucket bucket w = (Ok tt, w') →
  is_Some (Mem.buckets w' !! bucket) ∧
  (is_Some (Mem.buckets w !! bucket) → Mem.buckets w' = Mem.buckets w) ∧
  Mem.faults w' = Mem.faults (Mem.nextFault w).2.
Proof.
  unfold Mem.createBucket, Mem.fallible.
  pose proof (Mem_nextFault_buckets w) as Hb.
  destruct (Mem.nextFault w) as [[e|] w0]; [done|]. cbn [snd] in *.
  destruct (Mem.buckets w0 !! bucket) as [objects|] eqn:Hbucket; intros [= <-].
  - rewrite <- Hb, Hbucket. eauto.
  - cbn [Mem.buckets Mem.faults]. rewrite lookup_insert_eq, <- Hb, Hbucket.
    split_and!; [eauto | by intros [? ?] | done].
Qed.

Lemma Mem_upload_Ok bucket key body w w' :
  Mem.upload bucket key body w = (Ok tt, w') →
  ∃ objects,
    Mem.buckets w !! bucket = Some objects ∧
    Mem.buckets w' = <[bucket := <[key := body]> objects]> (Mem.buckets w) ∧
    Mem.faults w' = Mem.faults (Mem.nextFault w).2.
Proof.
  unfold Mem.upload, Mem.fallible.
  pose proof (Mem_nextFault_buckets w) as Hb.
  destruct (Mem.nextFault w) as [[e|] w0]; [done|]. cbn [snd] in *.
  destruct (Mem.buckets w0 !! bucket) as [objects|] eqn:Hbucket; intros [= <-].
  exists objects. by rewrite <- Hb.
Qed.

Lemma Mem_calm w : Mem.faults w = [] → Mem.nextFault w = (None, w).
Proof. unfold Mem.nextFault. by intros ->. Qed.

Section Publish.
Context `{Platform}.

(** Publishing what is already stored: a publish that succeeds returns the
    URI of the digest and leaves the store as it was; and with no fault to
    come it does succeed. *)
Lemma republish (userData bucketName : string) (s : St Mem.World) objects :
  let objectName := hex_EncodeToString (sha512_Sum userData) +:+ ".userdata" in
  let uri := "s3://" +:+ bucketName +:+ "/" +:+ objectName in
  Mem.buckets (world s) !! bucketName = Some objects →
  objects !! objectName = Some userData →
  (∀ uri' s', run (uploadUserDataToS3 userData bucketName) s = (Ok uri', s') →
     uri' = uri ∧ Mem.buckets (world s') = Mem.buckets (world s)) ∧
  (Mem.faults (world s) = [] →
     ∃ s', run (uploadUserDataToS3 userData bucketName) s = (Ok uri, s') ∧
           Mem.buckets (world s') = Mem.buckets (world s)).
Proof.
  cbv zeta. intros Hbucket Hobject.
  assert (∀ uri' s', run (uploadUserDataToS3 userData bucketName) s = (Ok uri', s') →
            uri' = "s3://" +:+ bucketName +:+ "/" +:+
                   hex_EncodeToString (sha512_Sum userData) +:+ ".userdata" ∧
            Mem.buckets (world s') = Mem.buckets (world s)) as Hsame.
  { intros uri' s' Hrun.
    apply uploadUserDataToS3_Ok in Hrun as (-> & w & Hcreate & Hupload).
    split; [done|].
    apply Mem_createBucket_Ok in Hcreate as (_ & Hkept & _).
    apply Mem_upload_Ok in Hupload as (objects' & Hbucket' & -> & _).
    rewrite Hkept in * by eauto.
    rewrite Hbucket in Hbucket'. injection Hbucket' as <-.
    by rewrite (insert_id objects), insert_id. }
  split; [done|]. intros Hcalm.
  destruct (uploadUserDataToS3_calls (W := Mem.World) userData bucketName s
              (world s)
              (Mem.mkWorld (Mem.files (world s))
                 (<[bucketName := <[hex_EncodeToString (sha512_Sum userData)
                                    +:+ ".userdata" := userData]> objects]>
                    (Mem.buckets (world s)))
                 (Mem.stacks (world s)) (Mem.faults (world s))))
    as (s' & Hrun & Hworld).
  - cbn [createS3Bucket Mem.cloud]. unfold Mem.createBucket, Mem.fallible.
    by rewrite (Mem_calm _ Hcalm), Hbucket.
  - cbn [s3Uploader_Upload Mem.cloud]. unfold Mem.upload, Mem.fallible.
    by rewrite (Mem_calm _ Hcalm), Hbucket.
  - exists s'. split; [done|]. by apply (Hsame _ _ Hrun).
Qed.

(** C8: a publish of [userData] to [bucketName] that succeeds returns
    [s3://<bucketName>/<hex of the digest>.userdata] and has stored the data
    under that key. Publishing the same bytes again returns the same URI
    whenever it succeeds and leaves the store as it was, with the one object
    for the data; and it does succeed unless the storage itself fails: the
    object that is already there is no error. *)
Theorem publish_idempotent (userData bucketName uri : string)
    (s s1 : St Mem.World) :
  run (uploadUserDataToS3 userData bucketName) s = (Ok uri, s1) →
  let objectName := hex_EncodeToString (sha512_Sum userData) +:+ ".userdata" in
  uri = "s3://" +:+ bucketName +:+ "/" +:+ objectName ∧
  (∃ objects, Mem.buckets (world s1) !! bucketName = Some objects ∧
              objects !! objectName = Some userData) ∧
  (∀ uri' s2, run (uploadUserDataToS3 userData bucketName) s1 = (Ok uri', s2) →
     uri' = uri ∧ Mem.buckets (world s2) = Mem.buckets (world s1)) ∧
  (Mem.faults (world s1) = [] →
     ∃ s2, run (uploadUserDataToS3 userData bucketName) s1 = (Ok uri, s2) ∧
           Mem.buckets (world s2) = Mem.buckets (world s1)).
Proof.
  intros Hrun. cbv zeta.
  apply uploadUserDataToS3_Ok in Hrun as (-> & w & Hcreate & Hupload).
  apply Mem_upload_Ok in Hupload as (objects & Hbucket & Hstore & _).
  assert (Mem.buckets (world s1) !! bucketName
          = Some (<[hex_EncodeToString (sha512_Sum userData) +:+ ".userdata"
                    := userData]> objects)) as Hstored.
  { by rewrite Hstore, lookup_insert_eq. }
  split; [done|]. split.
  { eexists. split; [exact Hstored | apply lookup_insert_eq]. }
  apply (republish userData bucketName s1 _ Hstored), lookup_insert_eq.
Qed.
End Publish.

(** Publishing the bytes [AB] twice, starting without a bucket. *)
Example publish_twice :
  let res := run (uploadUserDataToS3 "AB" "bucket") Example.start in
  let again := run (uploadUserDataToS3 "AB" "bucket") res.2 in
  res.1 = Ok "s3://bucket/4142.userdata" ∧
  again.1 = Ok "s3://bucket/4142.userdata" ∧
  Mem.buckets (world res.2) = {[ "bucket" := {[ "4142.userdata" := "AB" ]} ]} ∧
  Mem.buckets (world again.2) = Mem.buckets (world res.2).
Proof. intros res again. split_and!; vm_compute; reflexivity. Qed.

Lemma publish_idempotent_witness :
  let uri := "s3://bucket/4142.userdata" in
  let s1 := (run (uploadUserDataToS3 "AB" "bucket") Example.start).2 in
  let objectName := hex_EncodeToString (sha512_Sum "AB") +:+ ".userdata" in
  uri = "s3://" +:+ "bucket" +:+ "/" +:+ objectName ∧
  (∃ objects, Mem.buckets (world s1) !! "bucket" = Some objects ∧
              objects !! objectName = Some "AB") ∧
  (∀ uri' s2, run (uploadUserDataToS3 "AB" "bucket") s1 = (Ok uri', s2) →
     uri' = uri ∧ Mem.buckets (world s2) = Mem.buckets (world s1)) ∧
  (Mem.faults (world s1) = [] →
     ∃ s2, run (uploadUserDataToS3 "AB" "bucket") s1 = (Ok uri, s2) ∧
           Mem.buckets (world s2) = Mem.buckets (world s1)).
Proof.
  apply (publish_idempotent "AB" "bucket" "s3://bucket/4142.userdata" Example.start).
  vm_compute. reflexivity.
Defined.

(** ** Provision: fan-out and fan-in *)

Lemma receive_all (errorsc : list (result unit)) :
  receive (length errorsc) errorsc = Some errorsc.
Proof.
  induction errorsc as [|err rest IH]; [done|].
  cbn [length receive]. by rewrite IH.
Qed.

Lemma collectErrorStrs_loop (errorStrs : list string) (received : list (result unit)) :
  foldl (λ errorStrs err,
           match err with
           | Err e => errorStrs ++ [Error e]
           | Ok _ => errorStrs
           end) errorStrs received
  = errorStrs ++ errorTexts received.
Proof.
  revert errorStrs. induction received as [|[[]|e] rest IH]; intros errorStrs.
  - by rewrite app_nil_r.
  - cbn [foldl]. by rewrite IH.
  - cbn [foldl]. rewrite IH. unfold errorTexts. cbn [omap list_omap].
    by rewrite <- app_assoc.
Qed.

Lemma collectErrorStrs_errorTexts (received : list (result unit)) :
  collectErrorStrs received = errorTexts received.
Proof. apply collectErrorStrs_loop. Qed.

Section ChannelInvariant.
Context {W : Type}.
Implicit Types (g : Goroutine (W := W)) (gs : list (Goroutine (W := W))).

(** A step keeps the pool of the goroutine, and either sends nothing or is
    the one send of a goroutine that had not sent. *)
Lemma goStep_inv g (s : St W) errorsc :
  let res := goStep g s errorsc in
  poolOf res.1.1 = poolOf g ∧
  ((sent res.1.1 = sent g ∧ res.2 = errorsc) ∨
   (sent g = None ∧ ∃ m, sent res.1.1 = Some m ∧ res.2 = errorsc ++ [m])).
Proof.
  destruct g as [nodePool [err|B act k]|nodePool err]; cbn [goStep].
  - split; [done|]. right. eauto.
  - destruct (act s) as [b s']. split; [done|]. by left.
  - split; [done|]. by left.
Qed.

Lemma goFinish_inv g (s : St W) errorsc :
  let res := goFinish g s errorsc in
  poolOf res.1.1 = poolOf g ∧ hasExited res.1.1 ∧
  ((sent res.1.1 = sent g ∧ res.2 = errorsc) ∨
   (sent g = None ∧ ∃ m, sent res.1.1 = Some m ∧ res.2 = errorsc ++ [m])).
Proof.
  destruct g as [nodePool p|nodePool err]; cbn [goFinish].
  - destruct (run p s) as [err s']. split_and!; [done..|]. right. eauto.
  - split_and!; [done..|]. by left.
Qed.

Lemma omap_sent_cons g gs :
  omap sent (g :: gs) =
  match sent g with Some m => m :: omap sent gs | None => omap sent gs end.
Proof. reflexivity. Qed.

Lemma omap_sent_insert_same gs i g g' :
  gs !! i = Some g → sent g' = sent g →
  omap sent (<[i := g']> gs) = omap sent gs.
Proof.
  revert i. induction gs as [|g0 gs IH]; intros [|i] Hi Hsent; try done.
  - injection Hi as ->. change (<[0 := g']> (g :: gs)) with (g' :: gs).
    by rewrite !omap_sent_cons, Hsent.
  - change (<[S i := g']> (g0 :: gs)) with (g0 :: <[i := g']> gs).
    by rewrite !omap_sent_cons, (IH i).
Qed.

Lemma omap_sent_insert_new gs i g g' m :
  gs !! i = Some g → sent g = None → sent g' = Some m →
  omap sent (<[i := g']> gs) ≡ₚ omap sent gs ++ [m].
Proof.
  revert i. induction gs as [|g0 gs IH]; intros [|i] Hi Hnone Hsome; try done.
  - injection Hi as ->. change (<[0 := g']> (g :: gs)) with (g' :: gs).
    rewrite !omap_sent_cons, Hnone, Hsome.
    by rewrite Permutation_cons_append.
  - change (<[S i := g']> (g0 :: gs)) with (g0 :: <[i := g']> gs).
    rewrite !omap_sent_cons.
    destruct (sent g0); [cbn [app]; f_equiv|]; by apply (IH i).
Qed.

Lemma interleave_inv nodePools sched gs (s : St W) errorsc :
  channelInv nodePools gs errorsc →
  let res := interleave sched gs s errorsc in
  channelInv nodePools res.1.1 res.2.
Proof.
  revert gs s errorsc. induction sched as [|i sched IH];
    intros gs s errorsc [Hpools Hchan]; [done|].
  cbn [interleave]. destruct (gs !! i) as [g|] eqn:Hi; [|by apply IH].
  pose proof (goStep_inv g s errorsc) as Hstep.
  destruct (goStep g s errorsc) as [[g' s'] errorsc']. cbn [fst snd] in Hstep.
  destruct Hstep as (Hpool & Hsent). apply IH. split.
  - rewrite list_fmap_insert, Hpool. rewrite list_insert_id; [done|].
    by rewrite list_lookup_fmap, Hi.
  - destruct Hsent as [[Hsame ->]|(Hnone & m & Hsome & ->)].
    + by rewrite (omap_sent_insert_same _ _ g).
    + by rewrite (omap_sent_insert_new _ _ g _ m), Hchan.
Qed.

Lemma finishAll_inv nodePools todo done (s : St W) errorsc :
  channelInv nodePools (done ++ todo) errorsc →
  Forall hasExited done →
  let res := finishAll todo done s errorsc in
  channelInv nodePools res.1.1 res.2 ∧ Forall hasExited res.1.1.
Proof.
  revert done s errorsc. induction todo as [|g todo IH];
    intros done s errorsc [Hpools Hchan] Hdone.
  - cbn [finishAll fst snd]. by rewrite app_nil_r in *.
  - cbn [finishAll].
    pose proof (goFinish_inv g s errorsc) as Hfinish.
    destruct (goFinish g s errorsc) as [[g' s'] errorsc']. cbn [fst snd] in Hfinish.
    destruct Hfinish as (Hpool & Hexited & Hsent).
    apply IH; [|by apply Forall_app_2; [|apply Forall_singleton]].
    rewrite <- app_assoc. cbn [app]. split.
    + rewrite <- Hpools, !fmap_app, !fmap_cons. by rewrite Hpool.
    + rewrite omap_app, omap_sent_cons in *.
      destruct Hsent as [[-> ->]|(Hnone & m & -> & ->)]; [done|].
      rewrite Hnone in Hchan. rewrite Hchan.
      rewrite <- app_assoc. apply Permutation_app_head.
      symmetry. apply Permutation_cons_append.
Qed.

(** Goroutines that have all exited are their pools with their results. *)
Lemma exited_zip gs :
  Forall hasExited gs →
  gs = zip_with Exited (poolOf <$> gs) (resultOf <$> gs) ∧
  omap sent gs = zip_with wrapError (poolOf <$> gs) (resultOf <$> gs).
Proof.
  induction 1 as [|[nodePool p|nodePool err] gs Hg _ [IH1 IH2]]; [done..|].
  rewrite omap_sent_cons, !fmap_cons.
  cbn [zip_with sent poolOf resultOf].
  by rewrite <- IH1, <- IH2.
Qed.
End ChannelInvariant.

Lemma errorTexts_all_ok (nodePools : list api.NodePool) (errs : list (result unit)) :
  Forall (λ err, err = Ok tt) errs →
  errorTexts (zip_with wrapError nodePools errs) = [].
Proof.
  intros Hok. revert nodePools.
  induction Hok as [|err errs -> _ IH]; intros [|nodePool nodePools]; try done.
  cbn [zip_with wrapError]. apply IH.
Qed.

(** ** Provision: every pool is attempted *)

Section ExecLemmas.
Context {W : Type}.

Lemma during_weaken (s0 s0' s1 s1' : St W) st :
  calls s0' `prefix_of` calls s0 →
  calls s1 `prefix_of` calls s1' →
  during s0 s1 st → during s0' s1' st.
Proof.
  intros H0 H1 (Hpre & Hstep & Hpost). split_and!; [|done|]; by etrans.
Qed.

Lemma appendsCalls_bind {A B} (p : Proc W A) (f : A → Proc W B) :
  appendsCalls p → (∀ a, appendsCalls (f a)) → appendsCalls (bind p f).
Proof.
  intros Hp Hf. induction p as [a|C act k IH]; [apply Hf|].
  destruct Hp as [Hact Hk]. split; [done|]. intros b. by apply IH.
Qed.

Lemma appendsCalls_bindE {A B} (p : Proc W (result A))
    (f : A → Proc W (result B)) :
  appendsCalls p → (∀ a, appendsCalls (f a)) → appendsCalls (bindE p f).
Proof.
  intros Hp Hf. apply appendsCalls_bind; [done|]. by intros [a|e].
Qed.

Lemma appendsCalls_run {A} (p : Proc W A) (s : St W) :
  appendsCalls p → calls s `prefix_of` calls (run p s).2.
Proof.
  revert s. induction p as [a|C act k IH]; intros s Hp; [done|].
  destruct Hp as [Hact Hk]. cbn [run].
  specialize (Hact s). destruct (act s) as [b s'] eqn:Hs. cbn [snd] in Hact.
  etrans; [exact Hact|]. by apply IH.
Qed.

(** A run of a process alone is an execution of it. *)
Lemma run_Exec {A} (p : Proc W A) (s : St W) :
  appendsCalls p →
  ∃ steps, Exec p steps (run p s).1 ∧ Forall (during s (run p s).2) steps.
Proof.
  revert s. induction p as [a|C act k IH]; intros s Hp.
  - exists []. by split.
  - destruct Hp as [Hact Hk].
    pose proof (Hact s) as Hs.
    pose proof (appendsCalls_run (k (act s).1) (act s).2 (Hk _)) as Hrest.
    destruct (IH (act s).1 (act s).2 (Hk _)) as (steps & Hexec & Hduring).
    assert (run (Atomic act k) s = run (k (act s).1) (act s).2) as ->.
    { cbn [run]. by destruct (act s). }
    exists ((s, (act s).2) :: steps). split.
    + by exists s, steps.
    + apply Forall_cons. split; [by split_and!|].
      eapply Forall_impl; [exact Hduring|].
      intros st. by apply during_weaken.
Qed.

Lemma Exec_bind {A B} (p : Proc W A) (f : A → Proc W B) steps b :
  Exec (bind p f) steps b →
  ∃ a steps1 steps2,
    steps = steps1 ++ steps2 ∧ Exec p steps1 a ∧ Exec (f a) steps2 b.
Proof.
  revert steps. induction p as [a|C act k IH]; intros steps Hexec.
  - by exists a, [], steps.
  - destruct Hexec as (s & rest & -> & Hrest).
    destruct (IH _ _ Hrest) as (a & steps1 & steps2 & -> & Hp & Hf).
    exists a, ((s, (act s).2) :: steps1), steps2. split_and!; [done| |done].
    by exists s, steps1.
Qed.

Lemma Exec_bindE_Ok {A B} (p : Proc W (result A)) (f : A → Proc W (result B))
    steps b :
  Exec (bindE p f) steps (Ok b) →
  ∃ a steps1 steps2,
    steps = steps1 ++ steps2 ∧ Exec p steps1 (Ok a) ∧ Exec (f a) steps2 (Ok b).
Proof.
  intros (r & steps1 & steps2 & -> & Hp & Hf)%Exec_bind.
  destruct r as [a|e]; [by exists a, steps1, steps2|].
  by destruct Hf as [_ ?].
Qed.
End ExecLemmas.

Section AttemptLemmas.
Context `{Platform} {W : Type} `{Cloud W}.
Implicit Types (g : Goroutine (W := W)) (gs : list (Goroutine (W := W))).

Lemma Exec_callWorld {A} (c : Call) (f : W → result A * W) steps r :
  Exec (callWorld c f) steps r →
  ∃ s s', steps = [(s, s')] ∧ calls s' = calls s ++ [(c, outcome r)].
Proof.
  intros (s & rest & -> & -> & ->). eexists s, _. split; [done|].
  by destruct (f (world s)).
Qed.

Lemma appendsCalls_callWorld {A} (c : Call) (f : W → result A * W) :
  appendsCalls (callWorld c f).
Proof.
  split; [|done]. intros s. destruct (f (world s)). by apply prefix_app_r.
Qed.

Lemma appendsCalls_readWorld {A} (f : W → result A) : appendsCalls (readWorld f).
Proof. by split. Qed.

Lemma appendsCalls_readValues {A} (f : gmap string string → result A) :
  appendsCalls (W := W) (readValues f).
Proof. by split. Qed.

Lemma appendsCalls_setValue key v : appendsCalls (W := W) (setValue key v).
Proof. by split. Qed.

Lemma appendsCalls_renderTemplate templateFile data :
  appendsCalls (W := W) (renderTemplate templateFile data).
Proof.
  unfold renderTemplate.
  apply appendsCalls_bindE; [apply appendsCalls_readWorld | intros content].
  apply appendsCalls_bindE; [done | intros t]. apply appendsCalls_readValues.
Qed.

Lemma appendsCalls_provisionNodePool n nodePool :
  appendsCalls (W := W) (provisionNodePool n nodePool).
Proof.
  unfold provisionNodePool.
  apply appendsCalls_bindE; [apply appendsCalls_setValue | intros _].
  apply appendsCalls_bindE.
  { unfold resolveSpotPrice.
    repeat (match goal with
            | |- context [if ?b then _ else _] => destruct b
            | |- context [match ?m !! ?k with _ => _ end] => destruct (m !! k)
            end); first [done | apply appendsCalls_setValue]. }
  intros _. apply appendsCalls_bindE.
  { unfold generateNodePoolStackTemplate.
    apply appendsCalls_bindE; [apply appendsCalls_readWorld | intros fi].
    destruct (negb (IsDir fi)); [done|].
    apply appendsCalls_bindE; [|intros ud; apply appendsCalls_renderTemplate].
    unfold prepareUserData.
    apply appendsCalls_bindE; [apply appendsCalls_renderTemplate | intros rendered].
    destruct (clcToIgnition rendered); [|done].
    apply appendsCalls_bindE; [|done]. unfold uploadUserDataToS3.
    apply appendsCalls_bindE; [apply appendsCalls_callWorld | intros _].
    apply appendsCalls_bindE; [apply appendsCalls_callWorld | done]. }
  intros template. cbv zeta.
  apply appendsCalls_bindE; [apply appendsCalls_callWorld | intros _].
  apply appendsCalls_bindE; [apply appendsCalls_callWorld | done].
Qed.

(** An execution of [provisionNodePool] that returns nil has applied the
    stack of the pool. *)
Lemma Exec_provisionNodePool_Ok n nodePool steps :
  Exec (W := W) (provisionNodePool n nodePool) steps (Ok tt) →
  ∃ template s s',
    (s, s') ∈ steps ∧
    calls s' = calls s ++ [ (CallApplyStack (stackNameOf n nodePool) template
                               (nodePoolStackTags (api.ID (Cluster n)) nodePool),
                             None) ].
Proof.
  unfold provisionNodePool.
  intros (? & steps1 & rest1 & -> & _ & Hrest)%Exec_bindE_Ok.
  apply Exec_bindE_Ok in Hrest as (? & steps2 & rest2 & -> & _ & Hrest).
  apply Exec_bindE_Ok in Hrest as (template & steps3 & rest3 & -> & _ & Hrest).
  cbv zeta in Hrest.
  apply Exec_bindE_Ok in Hrest as (? & steps4 & rest4 & -> & Happly & _).
  apply Exec_callWorld in Happly as (s & s' & -> & Hcalls).
  exists template, s, s'. split; [|done].
  rewrite !elem_of_app. do 3 right. left. by apply list_elem_of_singleton.
Qed.

Lemma tracked_weaken n (s0 s1 s1' : St W) g :
  calls s1 `prefix_of` calls s1' → tracked n s0 s1 g → tracked n s0 s1' g.
Proof.
  intros Hgrow. destruct g as [nodePool p|nodePool err]; cbn [tracked].
  - intros (Hp & taken & Htaken & Hexec). split; [done|].
    exists taken. split; [|done].
    eapply Forall_impl; [exact Htaken|]. intros st. by apply during_weaken.
  - intros (steps & Hexec & Hsteps). exists steps. split; [done|].
    eapply Forall_impl; [exact Hsteps|]. intros st. by apply during_weaken.
Qed.

Lemma tracked_goStep n (s0 s : St W) g errorsc :
  calls s0 `prefix_of` calls s →
  tracked n s0 s g →
  let res := goStep g s errorsc in
  calls s `prefix_of` calls res.1.2 ∧ tracked n s0 res.1.2 res.1.1.
Proof.
  intros Hs0. destruct g as [nodePool [err|B act k]|nodePool err];
    cbn [goStep tracked].
  - intros (_ & taken & Htaken & Hexec). split; [done|].
    exists taken. split; [|done].
    rewrite <- (app_nil_r taken). by apply Hexec.
  - intros ([Hact Hk] & taken & Htaken & Hexec).
    pose proof (Hact s) as Hgrow.
    destruct (act s) as [b s'] eqn:Hs. cbn [fst snd] in *.
    split; [done|]. split; [apply Hk|].
    exists (taken ++ [(s, s')]). split.
    + apply Forall_app. split.
      * eapply Forall_impl; [exact Htaken|]. intros st. by apply during_weaken.
      * apply Forall_singleton. by split_and!.
    + intros steps err Hsteps. rewrite <- app_assoc. apply Hexec.
      exists s, steps. by rewrite Hs.
  - by intros Htracked.
Qed.

Lemma tracked_goFinish n (s0 s : St W) g errorsc :
  calls s0 `prefix_of` calls s →
  tracked n s0 s g →
  let res := goFinish g s errorsc in
  calls s `prefix_of` calls res.1.2 ∧ tracked n s0 res.1.2 res.1.1.
Proof.
  intros Hs0. destruct g as [nodePool p|nodePool err]; cbn [goFinish tracked].
  - intros (Hp & taken & Htaken & Hexec).
    pose proof (appendsCalls_run p s Hp) as Hgrow.
    destruct (run_Exec p s Hp) as (steps & Hsteps & Hduring).
    destruct (run p s) as [err s']. cbn [fst snd] in *.
    split; [done|]. exists (taken ++ steps). split; [by apply Hexec|].
    apply Forall_app. split.
    + eapply Forall_impl; [exact Htaken|]. intros st. by apply during_weaken.
    + eapply Forall_impl; [exact Hduring|]. intros st. by apply during_weaken.
  - by intros Htracked.
Qed.

Lemma tracked_interleave n (s0 : St W) sched gs s errorsc :
  calls s0 `prefix_of` calls s →
  Forall (tracked n s0 s) gs →
  let res := interleave sched gs s errorsc in
  calls s0 `prefix_of` calls res.1.2 ∧ Forall (tracked n s0 res.1.2) res.1.1.
Proof.
  revert gs s errorsc. induction sched as [|i sched IH];
    intros gs s errorsc Hs0 Hgs; [done|].
  cbn [interleave]. destruct (gs !! i) as [g|] eqn:Hi; [|by apply IH].
  pose proof (tracked_goStep n s0 s g errorsc Hs0 (Forall_lookup_1 _ _ _ _ Hgs Hi))
    as Hstep.
  destruct (goStep g s errorsc) as [[g' s'] errorsc']. cbn [fst snd] in Hstep.
  destruct Hstep as [Hgrow Hg']. apply IH; [by etrans|].
  apply Forall_insert; [|done].
  eapply Forall_impl; [exact Hgs|]. intros g0. by apply tracked_weaken.
Qed.

Lemma tracked_finishAll n (s0 : St W) todo finished s errorsc :
  calls s0 `prefix_of` calls s →
  Forall (tracked n s0 s) todo →
  Forall (tracked n s0 s) finished →
  let res := finishAll todo finished s errorsc in
  calls s0 `prefix_of` calls res.1.2 ∧ Forall (tracked n s0 res.1.2) res.1.1.
Proof.
  revert finished s errorsc. induction todo as [|g todo IH];
    intros finished s errorsc Hs0 Htodo Hfinished; [done|].
  apply Forall_cons in Htodo as [Hg Htodo]. cbn [finishAll].
  pose proof (tracked_goFinish n s0 s g errorsc Hs0 Hg) as Hfinish.
  destruct (goFinish g s errorsc) as [[g' s'] errorsc']. cbn [fst snd] in Hfinish.
  destruct Hfinish as [Hgrow Hg']. apply IH; [by etrans| |].
  - eapply Forall_impl; [exact Htodo|]. intros g0. by apply tracked_weaken.
  - apply Forall_app. split; [|by apply Forall_singleton].
    eapply Forall_impl; [exact Hfinished|]. intros g0. by apply tracked_weaken.
Qed.

Lemma tracked_launch n (s : St W) nodePools :
  Forall (tracked n s s) (launch n nodePools).
Proof.
  unfold launch. induction nodePools as [|nodePool rest IH]; [done|].
  cbn [map]. apply Forall_cons. split; [|done]. cbn [tracked].
  split; [apply appendsCalls_provisionNodePool|]. by exists [].
Qed.

Lemma tracked_exited n (s0 s1 : St W) nodePools errs :
  length errs = length nodePools →
  Forall (tracked n s0 s1) (zip_with Exited nodePools errs) →
  Forall2 (attempted n s0 s1) nodePools errs.
Proof.
  revert errs. induction nodePools as [|nodePool rest IH]; intros [|err errs] Hlen;
    try done.
  cbn [zip_with]. intros [Hg Hgs]%Forall_cons.
  apply Forall2_cons. split; [done|]. apply IH; [|done].
  cbn [length] in Hlen. lia.
Qed.

End AttemptLemmas.

Section ProvisionTheorems.
Context `{Platform} {W : Type} `{Cloud W}.

Lemma launch_inv (n : AWSNodePoolProvisioner) (nodePools : list api.NodePool) :
  channelInv (W := W) nodePools (launch n nodePools) [].
Proof.
  unfold channelInv, launch. induction nodePools as [|nodePool rest [IH1 IH2]];
    [done|].
  cbn [map]. rewrite fmap_cons, omap_sent_cons. cbn [poolOf sent].
  by rewrite IH1.
Qed.

(** Under every interleaving of the goroutines' actions [Provision]
    returns.  For every target pool [provisionNodePool] has been executed to
    its end, whatever the others returned: [errs] holds the results in the
    order of the pools, each the result of an execution that took its
    actions between the state [Provision] started in and the state it left,
    and the stack of every pool whose result is nil has been applied.  The
    channel has delivered one message per goroutine, [received].  When
    every result is nil [Provision] returns nil; when some pool failed it
    returns the one error whose text is the received error texts joined by
    [", "], and this text holds, for each failing pool, its name and its
    reason. *)
Theorem Provision_aggregates (n : AWSNodePoolProvisioner) (sched : list nat)
    (s : St W) :
  let res := Provision n sched s in
  let nodePools := getNonLegacyNodePools (Cluster n) in
  ∃ errs received,
    res.2 = zip_with Exited nodePools errs ∧
    length errs = length nodePools ∧
    Forall2 (attempted n s res.1.2) nodePools errs ∧
    (∀ i nodePool,
       nodePools !! i = Some nodePool → errs !! i = Some (Ok tt) →
       ∃ template,
         (CallApplyStack (stackNameOf n nodePool) template
            (nodePoolStackTags (api.ID (Cluster n)) nodePool), None)
         ∈ calls res.1.2) ∧
    received ≡ₚ zip_with wrapError nodePools errs ∧
    (Forall (λ err, err = Ok tt) errs → res.1.1 = Some (Ok tt)) ∧
    (∀ i nodePool e,
       nodePools !! i = Some nodePool → errs !! i = Some (Err e) →
       res.1.1 = Some (Err (errors_New (strings_Join (errorTexts received) ", "))) ∧
       Contains (strings_Join (errorTexts received) ", ")
                ("failed to provision node pool " +:+ api.Name nodePool
                 +:+ ": " +:+ Error e)).
Proof.
  cbv zeta. unfold Provision.
  set (nodePools := getNonLegacyNodePools (Cluster n)).
  pose proof (interleave_inv nodePools sched (launch n nodePools) s []
                (launch_inv n nodePools)) as Hinter.
  pose proof (tracked_interleave n s sched (launch n nodePools) s []
                (reflexivity _) (tracked_launch n s nodePools)) as Htrack.
  destruct (interleave sched (launch n nodePools) s []) as [[gs s1] errorsc1].
  cbn [fst snd] in Hinter, Htrack. destruct Htrack as [Hs1 Hgs1].
  pose proof (finishAll_inv nodePools gs [] s1 errorsc1 Hinter (Forall_nil_2 _))
    as Hfinish.
  pose proof (tracked_finishAll n s gs [] s1 errorsc1 Hs1 Hgs1 (Forall_nil_2 _))
    as Htrack.
  destruct (finishAll gs [] s1 errorsc1) as [[gs' s2] errorsc2].
  cbn [fst snd] in Hfinish, Htrack |- *. destruct Htrack as [Hs2 Hgs2].
  destruct Hfinish as ([Hpools Hchan] & Hexited).
  destruct (exited_zip gs' Hexited) as [Hgs Hsent].
  rewrite Hpools in Hgs, Hsent. rewrite Hsent in Hchan.
  assert (length (resultOf <$> gs') = length nodePools) as Hlen.
  { by rewrite <- Hpools, !length_fmap. }
  assert (receive (length nodePools) errorsc2 = Some errorsc2) as Hreceive.
  { assert (length nodePools = length errorsc2) as ->; [|apply receive_all].
    rewrite (Permutation_length Hchan), length_zip_with_l_eq; [done|].
    by rewrite Hlen. }
  assert (Forall2 (attempted n s s2) nodePools (resultOf <$> gs')) as Hattempted.
  { apply tracked_exited; [done|]. by rewrite <- Hgs. }
  rewrite Hreceive. cbn [mbind option_bind]. rewrite collectErrorStrs_errorTexts.
  exists (resultOf <$> gs'), errorsc2. split_and!; [done..| | | |].
  - intros i nodePool Hpool Herr.
    destruct (Forall2_lookup_lr _ _ _ _ _ _ Hattempted Hpool Herr)
      as (steps & Hexec & Hduring).
    apply Exec_provisionNodePool_Ok in Hexec as (template & sa & sb & Hin & Hcalls).
    exists template.
    destruct (proj1 (Forall_forall _ _) Hduring _ Hin) as (_ & _ & [later Hlater]).
    cbn [snd] in Hlater. rewrite Hlater, Hcalls, !elem_of_app.
    left. right. by apply list_elem_of_singleton.
  - done.
  - intros Hok.
    assert (errorTexts errorsc2 = []) as ->.
    { apply Permutation_nil_r. rewrite <- (errorTexts_all_ok nodePools _ Hok).
      unfold errorTexts. by rewrite Hchan. }
    by rewrite decide_False by (cbn; lia).
  - intros i nodePool e Hpool Herr.
    assert (Error (fmt_Errorf ("failed to provision node pool " +:+ api.Name nodePool
                               +:+ ": " +:+ Error e))
            ∈ errorTexts errorsc2) as Hin.
    { apply list_elem_of_omap.
      exists (wrapError nodePool (Err e)). split; [|done].
      rewrite Hchan. apply list_elem_of_lookup. exists i.
      by rewrite lookup_zip_with, Hpool, Herr. }
    split.
    + rewrite decide_True; [done|].
      destruct (errorTexts errorsc2); [by apply elem_of_nil in Hin | cbn; lia].
    + by apply Contains_strings_Join.
Qed.

(** A single pool's provisioning writes [spot_price] into the map it was
    handed. *)
Lemma provisionNodePool_writes_values (n : AWSNodePoolProvisioner)
    (nodePool : api.NodePool) (s : St W) :
  is_Some (values (run (provisionNodePool n nodePool) s).2 !! "spot_price").
Proof.
  pose proof (provisionNodePool_run n nodePool s) as Hrun. cbv zeta in Hrun.
  assert (is_Some (values (run (resolveSpotPrice n nodePool)
                             (mkSt (<["spot_price" := ""]> (values s))
                                   (world s) (calls s))).2 !! "spot_price")) as Hset.
  { unfold resolveSpotPrice.
    repeat (match goal with
            | |- context [if ?b then _ else _] => destruct b
            | |- context [match ?m !! ?k with _ => _ end] => destruct (m !! k)
            end);
      rewrite ?run_setValue; cbn [run snd values];
      rewrite lookup_insert_eq; eauto. }
  destruct (run (resolveSpotPrice n nodePool) _) as [[[]|e] s1].
  - by rewrite Hrun.
  - by rewrite Hrun.
Qed.
End ProvisionTheorems.

(** The partial-failure example of the specification: of three target
    pools the second has an unknown instance type. [Provision] returns an
    error that names the second pool, and the stacks of the first and of the
    third have been applied. *)
Example Provision_partial_failure :
  let res := Provision Example.oneTwoThree [] Example.start in
  res.1.1 = Some (Err (errorString
              "failed to provision node pool two: unknown instance type x9.huge")) ∧
  resultOf <$> res.2 = [Ok tt; Err (errorString "unknown instance type x9.huge"); Ok tt] ∧
  (appliedTemplates (calls res.1.2)).*1
    = ["nodepool-one-aws-123-eu"; "nodepool-three-aws-123-eu"].
Proof. vm_compute. by repeat split. Qed.

(** Two failing pools, the last one finishing first: both are named, in the
    order in which their messages arrived. *)
Example Provision_two_failures :
  let res := Provision Example.twoOneFour [2; 2; 2; 2] Example.start in
  res.1.1 = Some (Err (errorString
              ("failed to provision node pool four: "
               +:+ "stat /cfg/nope: no such file or directory, "
               +:+ "failed to provision node pool two: "
               +:+ "unknown instance type x9.huge"))) ∧
  (appliedTemplates (calls res.1.2)).*1 = ["nodepool-one-aws-123-eu"].
Proof. vm_compute. by repeat split. Qed.


(** C2 on the pools [a] (spot, price 0.115) and [b] (no discount) and an
    empty [values] map. Provisioning [b] alone leaves [spot_price] in the
    caller's map. Under the schedule in which the goroutine of [b] takes two
    steps (it clears [spot_price] and looks up its profile), the goroutine
    of [a] takes three (it clears [spot_price], sets it to 0.115 and looks
    up its profile) and then each runs to its end, the stack template of [b]
    is rendered with the price of [a]: the goroutines write to one map, the
    one the caller passed. *)
Lemma Provision_shares_values :
  let n := Example.provisioner in
  let alone := run (provisionNodePool n Example.poolB) Example.start in
  let interleaved := Provision n [1; 1; 0; 0; 0] Example.start in
  values Example.start = ∅ ∧
  values alone.2 = {[ "spot_price" := "" ]} ∧
  api.DiscountStrategy Example.poolB = discountStrategyNone ∧
  interleaved.1.1 = Some (Ok tt) ∧
  appliedTemplates (calls interleaved.1.2) =
    [ ("nodepool-a-aws-123-eu",
       "price=0.115;userdata=source=s3://bucket/706f6f6c2061.userdata");
      ("nodepool-b-aws-123-eu",
       "price=0.115;userdata=source=s3://bucket/706f6f6c2062.userdata") ] ∧
  values interleaved.1.2 = {[ "spot_price" := "0.115" ]}.
Proof. intros n alone interleaved. split_and!; vm_compute; reflexivity. Qed.

(** The same pools one after the other: [b] is rendered without a price. *)
Example Provision_sequential :
  let res := Provision Example.provisioner [] Example.start in
  appliedTemplates (calls res.1.2) =
    [ ("nodepool-a-aws-123-eu",
       "price=0.115;userdata=source=s3://bucket/706f6f6c2061.userdata");
      ("nodepool-b-aws-123-eu",
       "price=;userdata=source=s3://bucket/706f6f6c2062.userdata") ] ∧
  values res.1.2 = {[ "spot_price" := "" ]}.
Proof. intros res. split_and!; vm_compute; reflexivity. Qed.

(** * Further properties *)

(** ** Tags of provisioned stacks *)

(** The tags that [provisionNodePool] puts on a stack include every tag
    that [Reconcile] asks its listing for: the ownership tag of the cluster
    and the role tag. *)
Theorem provisioned_tags_pass_filter (n : AWSNodePoolProvisioner)
    (nodePool : api.NodePool) :
  map_Forall (λ key value,
                carriesTag (nodePoolStackTags (api.ID (Cluster n)) nodePool) key value)
             (reconcileTags n).
Proof.
  unfold reconcileTags. apply map_Forall_insert_2; [|apply map_Forall_insert_2].
  - exists (cloudformation.mkTag (aws_String nodePoolRoleTagKey) (aws_String "true")).
    split; [|done]. apply elem_of_cons. right. by left.
  - exists (cloudformation.mkTag
              (aws_String (tagNameKubernetesClusterPrefix +:+ api.ID (Cluster n)))
              (aws_String resourceLifecycleOwned)).
    split; [|done]. by left.
  - apply map_Forall_empty.
Qed.

(** For every pool and cluster the tags decode to the name of the pool, and
    to that same name as the profile. *)
Theorem provisioned_tags_decode (clusterID : string) (stackName : option string)
    (p : api.NodePool) :
  nodePoolStackToNodePool
    (cloudformation.mkStack stackName (nodePoolStackTags clusterID p))
  = api.mkNodePool (api.Name p) (api.Name p) "" "".
Proof. by vm_compute. Qed.

Lemma provisioned_Name (clusterID : string) (stackName : option string)
    (p : api.NodePool) :
  api.Name (nodePoolStackToNodePool
              (cloudformation.mkStack stackName (nodePoolStackTags clusterID p)))
  = api.Name p.
Proof. by vm_compute. Qed.

(** The stack provisioned for a pool is orphaned exactly when it is listed
    and no desired pool has the pool's name; the stack of a pool that is
    still desired is never among the orphans. *)
Theorem provisioned_stack_orphaned_iff (clusterID : string)
    (stackName : option string) (p : api.NodePool)
    (nodePoolStacks : list cloudformation.Stack) (nodePools : list api.NodePool) :
  let stack := cloudformation.mkStack stackName (nodePoolStackTags clusterID p) in
  (stack ∈ orphanedNodePoolStacks nodePoolStacks nodePools ↔
   stack ∈ nodePoolStacks ∧ api.Name p ∉ api.Name <$> nodePools) ∧
  (p ∈ nodePools → stack ∉ orphanedNodePoolStacks nodePoolStacks nodePools).
Proof.
  cbv zeta.
  assert (∀ stack, stack = cloudformation.mkStack stackName
                             (nodePoolStackTags clusterID p) →
            (stack ∈ orphanedNodePoolStacks nodePoolStacks nodePools ↔
             stack ∈ nodePoolStacks ∧ api.Name p ∉ api.Name <$> nodePools)) as Hiff.
  { intros stack ->.
    rewrite orphanedNodePoolStacks_filter, list_elem_of_filter, provisioned_Name.
    tauto. }
  split; [by apply Hiff|].
  intros Hp [_ Hname]%Hiff; [|done]. apply Hname. by apply list_elem_of_fmap_2.
Qed.

(** ** Decoding any tag list *)

Lemma readTag_other_fields (nodePool : api.NodePool) (tag : cloudformation.Tag) :
  api.InstanceType (readTag nodePool tag) = api.InstanceType nodePool ∧
  api.DiscountStrategy (readTag nodePool tag) = api.DiscountStrategy nodePool.
Proof.
  unfold readTag.
  by destruct (String.eqb _ nodePoolTagKey), (String.eqb _ nodePoolProfileTagKey).
Qed.

Lemma foldl_readTag_other_fields (tags : list cloudformation.Tag)
    (nodePool : api.NodePool) :
  api.InstanceType (foldl readTag nodePool tags) = api.InstanceType nodePool ∧
  api.DiscountStrategy (foldl readTag nodePool tags) = api.DiscountStrategy nodePool.
Proof.
  revert nodePool. induction tags as [|tag tags IH]; intros np; [done|].
  cbn [foldl]. destruct (IH (readTag np tag)) as [-> ->].
  apply readTag_other_fields.
Qed.

(** Decoding never fails and fills in the name and the profile only: the
    instance type and the discount strategy of a decoded pool are empty.
    Of several name tags the last one counts, a name tag without a value
    gives the empty name, and a trailing name tag leaves the profile as it
    was. *)
Theorem decode_tolerant (stackName : option string)
    (tags : list cloudformation.Tag) (value : option string) :
  let before := nodePoolStackToNodePool (cloudformation.mkStack stackName tags) in
  let after :=
    nodePoolStackToNodePool
      (cloudformation.mkStack stackName
         (tags ++ [cloudformation.mkTag (Some nodePoolTagKey) value])) in
  api.InstanceType before = "" ∧
  api.DiscountStrategy before = "" ∧
  api.Name after = aws_StringValue value ∧
  api.Profile after = api.Profile before.
Proof.
  cbv zeta. unfold nodePoolStackToNodePool. cbn [cloudformation.Tags].
  destruct (foldl_readTag_other_fields tags api.zero) as [-> ->].
  rewrite foldl_app. cbn [foldl].
  by split_and!.
Qed.

(** ** Orphans at the edges *)

(** With no desired pool every listed stack is an orphan; the orphans are
    always taken from the listing, in its order; and picking the orphans
    among the orphans changes nothing. *)
Theorem orphans_edge_cases (nodePoolStacks : list cloudformation.Stack)
    (nodePools : list api.NodePool) :
  orphanedNodePoolStacks nodePoolStacks [] = nodePoolStacks ∧
  orphanedNodePoolStacks nodePoolStacks nodePools `sublist_of` nodePoolStacks ∧
  orphanedNodePoolStacks (orphanedNodePoolStacks nodePoolStacks nodePools) nodePools
    = orphanedNodePoolStacks nodePoolStacks nodePools.
Proof.
  rewrite !orphanedNodePoolStacks_filter. split_and!.
  - induction nodePoolStacks as [|stack rest IH]; [done|].
    rewrite filter_cons_True; [by rewrite IH|]. by intros ?%elem_of_nil.
  - apply sublist_filter.
  - by apply list_filter_filter_l.
Qed.

(** More desired pools, fewer orphans: a stack that is an orphan against
    the larger desired set is one against the smaller. *)
Theorem orphans_antitone (nodePoolStacks : list cloudformation.Stack)
    (nodePools more : list api.NodePool) (stack : cloudformation.Stack) :
  stack ∈ orphanedNodePoolStacks nodePoolStacks (nodePools ++ more) →
  stack ∈ orphanedNodePoolStacks nodePoolStacks nodePools.
Proof.
  rewrite !orphanedNodePoolStacks_filter, !list_elem_of_filter, fmap_app.
  intros [Hname Hin]. split; [|done]. intros Hin'. apply Hname.
  apply elem_of_app. by left.
Qed.

Lemma orphans_antitone_witness :
  Example.oldStack ∈
    orphanedNodePoolStacks [Example.oldStack; Example.namelessStack] [Example.poolA].
Proof.
  apply (orphans_antitone _ [Example.poolA] [Example.poolB]).
  vm_compute. by left.
Defined.

(** ** Reconcile: what a pass does and does not do *)

Lemma Decommissioned_stops orphaned evs r :
  Decommissioned orphaned evs r →
  (∀ i c e, evs !! i = Some (c, Some e) → r = Err e ∧ length evs = S i) ∧
  (∀ e, r = Err e → ∃ c, last evs = Some (c, Some e)).
Proof.
  induction 1 as [|stack rest e|stack rest e|stack rest evs r _ [IH1 IH2]].
  - by split.
  - split.
    + intros [|[|]] c e' Hi; try done. by injection Hi as <- <-.
    + intros e' [= <-]. eauto.
  - split.
    + intros [|[|[|]]] c e' Hi; try done. by injection Hi as <- <-.
    + intros e' [= <-]. eauto.
  - split.
    + intros [|[|i]] c e Hi; [done..|].
      destruct (IH1 i c e Hi) as [-> Hlen]. split; [done|].
      cbn [length]. by rewrite Hlen.
    + intros e Hr. destruct (IH2 e Hr) as [c Hlast]. exists c.
      destruct evs; [done|]. exact Hlast.
Qed.

Lemma Decommissioned_Ok_calls orphaned evs :
  Decommissioned orphaned evs (Ok tt) → evs = flat_map drainAndDelete orphaned.
Proof.
  intros Hdec. remember (Ok tt) as r eqn:Hr.
  induction Hdec as [|stack rest e|stack rest e|stack rest evs r _ IH]; try done.
  cbn [flat_map drainAndDelete app]. by rewrite <- IH.
Qed.

Lemma Decommissioned_calls orphaned evs r :
  Decommissioned orphaned evs r →
  ∀ ev, ev ∈ evs → ∃ stack, stack ∈ orphaned ∧ decommissions stack ev.1.
Proof.
  induction 1 as [|stack rest e|stack rest e|stack rest evs r _ IH]; intros ev Hin.
  - by apply elem_of_nil in Hin.
  - apply list_elem_of_singleton in Hin as ->. exists stack. split; [by left|].
    by left.
  - exists stack. split; [by left|].
    apply elem_of_cons in Hin as [->|Hin]; [by left|].
    apply list_elem_of_singleton in Hin as ->. by right.
  - apply elem_of_cons in Hin as [->|Hin]; [exists stack; split; by left|].
    apply elem_of_cons in Hin as [->|Hin];
      [exists stack; split; [by left | by right]|].
    destruct (IH ev Hin) as (stack' & Hin' & Hev). exists stack'.
    split; [by right | done].
Qed.

Section ReconcilePass.
Context `{Platform} {W : Type} `{Cloud W}.

(** [Reconcile] stops at the first call that fails, the listing included:
    a failing call is the last call of the pass and its error is the
    result; and every error that [Reconcile] returns is the error of its
    last call. *)
Theorem Reconcile_stops_at_first_failure (n : AWSNodePoolProvisioner) (s : St W) :
  let res := run (Reconcile n) s in
  ∃ evs,
    calls res.2 = calls s ++ evs ∧
    (∀ i c e, evs !! i = Some (c, Some e) → res.1 = Err e ∧ length evs = S i) ∧
    (∀ e, res.1 = Err e → ∃ c, last evs = Some (c, Some e)).
Proof.
  pose proof (Reconcile_run n s) as Hrun. cbv zeta in *.
  destruct (ListStacks (reconcileTags n) (world s)).1 as [nodePoolStacks|e0].
  - destruct Hrun as (evs & Hcalls & Hdec).
    destruct (Decommissioned_stops _ _ _ Hdec) as [Hstop Hlast].
    exists ((CallListStacks (reconcileTags n), None) :: evs). split_and!; [done| |].
    + intros [|i] c e Hi; [done|]. destruct (Hstop i c e Hi) as [-> Hlen].
      split; [done|]. cbn [length]. by rewrite Hlen.
    + intros e Hr. destruct (Hlast e Hr) as [c Hc]. exists c.
      destruct evs; [done|]. exact Hc.
  - destruct Hrun as (Hres & Hcalls). eexists. split_and!; [done| |].
    + intros [|[|]] c e Hi; try done. injection Hi as <- <-. by rewrite Hres.
    + intros e. rewrite Hres. intros [= <-]. eauto.
Qed.

(** A pass that returns nil has listed the stacks and then, for each orphan
    in the order of the listing, scaled its pool to zero and deleted its
    stack, and has made no other call. *)
Theorem Reconcile_success_calls (n : AWSNodePoolProvisioner) (s : St W) :
  (run (Reconcile n) s).1 = Ok tt →
  ∃ nodePoolStacks,
    (ListStacks (reconcileTags n) (world s)).1 = Ok nodePoolStacks ∧
    calls (run (Reconcile n) s).2 =
      calls s ++ (CallListStacks (reconcileTags n), None)
              :: flat_map drainAndDelete
                   (orphanedNodePoolStacks nodePoolStacks (api.NodePools (Cluster n))).
Proof.
  intros Hres. pose proof (Reconcile_run n s) as Hrun. cbv zeta in Hrun.
  destruct (ListStacks (reconcileTags n) (world s)).1 as [nodePoolStacks|e0].
  - destruct Hrun as (evs & Hcalls & Hdec). exists nodePoolStacks. split; [done|].
    rewrite Hres in Hdec. by rewrite Hcalls, (Decommissioned_Ok_calls _ _ Hdec).
  - destruct Hrun as [Hres' _]. congruence.
Qed.

(** When every listed stack decodes to the name of a desired pool the pass
    makes the listing call and nothing else, and returns nil. *)
Theorem Reconcile_nothing_to_do (n : AWSNodePoolProvisioner) (s : St W)
    (nodePoolStacks : list cloudformation.Stack) :
  (ListStacks (reconcileTags n) (world s)).1 = Ok nodePoolStacks →
  (∀ stack, stack ∈ nodePoolStacks →
     api.Name (nodePoolStackToNodePool stack)
       ∈ api.Name <$> api.NodePools (Cluster n)) →
  (run (Reconcile n) s).1 = Ok tt ∧
  calls (run (Reconcile n) s).2 = calls s ++ [(CallListStacks (reconcileTags n), None)].
Proof.
  intros Hlist Hdesired.
  pose proof (Reconcile_run n s) as Hrun. cbv zeta in Hrun. rewrite Hlist in Hrun.
  destruct Hrun as (evs & Hcalls & Hdec).
  assert (orphanedNodePoolStacks nodePoolStacks (api.NodePools (Cluster n)) = [])
    as Hnone.
  { destruct (orphanedNodePoolStacks _ _) as [|stack rest] eqn:Horphans; [done|].
    assert (stack ∈ orphanedNodePoolStacks nodePoolStacks
                      (api.NodePools (Cluster n))) as Horphan
      by (rewrite Horphans; by left).
    rewrite orphanedNodePoolStacks_filter, list_elem_of_filter in Horphan.
    destruct Horphan as [Hname Hin]. by apply Hdesired in Hin. }
  rewrite Hnone in Hdec. inversion Hdec; subst. by split.
Qed.

(** A pass lists, scales pools of orphaned stacks to zero and deletes
    orphaned stacks; it makes no other call and leaves the [values] map as it
    is. It never scales a pool whose name is desired. *)
Theorem Reconcile_touches_orphans_only (n : AWSNodePoolProvisioner) (s : St W) :
  let res := run (Reconcile n) s in
  ∃ evs,
    calls res.2 = calls s ++ evs ∧
    values res.2 = values s ∧
    (∀ ev, ev ∈ evs →
       ev.1 = CallListStacks (reconcileTags n) ∨
       ∃ nodePoolStacks stack,
         (ListStacks (reconcileTags n) (world s)).1 = Ok nodePoolStacks ∧
         stack ∈ orphanedNodePoolStacks nodePoolStacks (api.NodePools (Cluster n)) ∧
         decommissions stack ev.1) ∧
    (∀ nodePool replicas o,
       (CallScalePool nodePool replicas, o) ∈ evs →
       replicas = 0%Z ∧
       api.Name nodePool ∉ api.Name <$> api.NodePools (Cluster n)).
Proof.
  assert (keepsValues (Reconcile n)) as Hkeeps.
  { unfold Reconcile. apply keepsValues_bindE; [apply keepsValues_callWorld|].
    intros nodePoolStacks. cbv zeta.
    induction (orphanedNodePoolStacks _ _) as [|stack rest IH];
      [apply keepsValues_Ret|].
    cbn [decommission].
    apply keepsValues_bindE; [apply keepsValues_callWorld | intros _].
    apply keepsValues_bindE; [apply keepsValues_callWorld | intros _]. apply IH. }
  pose proof (Reconcile_run n s) as Hrun. cbv zeta in *.
  destruct (ListStacks (reconcileTags n) (world s)).1 as [nodePoolStacks|e0].
  - destruct Hrun as (evs & Hcalls & Hdec).
    pose proof (Decommissioned_calls _ _ _ Hdec) as Hevs.
    exists ((CallListStacks (reconcileTags n), None) :: evs).
    split_and!; [done | apply Hkeeps | |].
    + intros ev [->|Hin]%elem_of_cons; [by left|]. right.
      destruct (Hevs ev Hin) as (stack & Horphan & Hev). eauto.
    + intros nodePool replicas o [?|Hin]%elem_of_cons; [done|].
      destruct (Hevs _ Hin) as (stack & Horphan & [Hev|Hev]); [|done].
      cbn [fst] in Hev. injection Hev as -> ->. split; [done|].
      rewrite orphanedNodePoolStacks_filter, list_elem_of_filter in Horphan.
      apply Horphan.
  - destruct Hrun as (Hres & Hcalls). eexists.
    split_and!; [done | apply Hkeeps | |].
    + intros ev ->%list_elem_of_singleton. by left.
    + by intros nodePool replicas o ?%list_elem_of_singleton.
Qed.

(** When the listed stacks have distinct names, a pass never calls
    [DeleteStack] on a listed stack that decodes to the name of a desired
    pool. *)
Theorem Reconcile_keeps_desired_stacks (n : AWSNodePoolProvisioner) (s : St W)
    (nodePoolStacks : list cloudformation.Stack) (stack : cloudformation.Stack) :
  (ListStacks (reconcileTags n) (world s)).1 = Ok nodePoolStacks →
  NoDup ((λ st, aws_StringValue (cloudformation.StackName st)) <$> nodePoolStacks) →
  stack ∈ nodePoolStacks →
  api.Name (nodePoolStackToNodePool stack) ∈ api.Name <$> api.NodePools (Cluster n) →
  ∀ ev, ev ∈ drop (length (calls s)) (calls (run (Reconcile n) s).2) →
        ev.1 ≠ CallDeleteStack (aws_StringValue (cloudformation.StackName stack)).
Proof.
  intros Hlist Hnodup Hin Hdesired ev Hev Hcall.
  pose proof (Reconcile_run n s) as Hrun. cbv zeta in Hrun. rewrite Hlist in Hrun.
  destruct Hrun as (evs & Hcalls & Hdec).
  rewrite Hcalls, drop_app_length in Hev.
  apply elem_of_cons in Hev as [->|Hev]; [done|].
  destruct (Decommissioned_calls _ _ _ Hdec ev Hev) as (stack' & Horphan & Hdecom).
  rewrite orphanedNodePoolStacks_filter, list_elem_of_filter in Horphan.
  destruct Horphan as [Hname Hin'].
  destruct Hdecom as [Hscale|Hdelete]; [congruence|].
  rewrite Hcall in Hdelete. injection Hdelete as Hsame.
  assert (stack = stack') as <-; [|done].
  apply list_elem_of_lookup in Hin as [i Hi].
  apply list_elem_of_lookup in Hin' as [j Hj].
  assert (i = j) as <-; [|congruence].
  apply (NoDup_lookup _ i j (aws_StringValue (cloudformation.StackName stack)) Hnodup).
  - by rewrite list_lookup_fmap, Hi.
  - by rewrite list_lookup_fmap, Hj, Hsame.
Qed.
End ReconcilePass.

Lemma Reconcile_success_calls_witness :
  let n := Example.provisioner in
  let s := Example.live [Example.stackA; Example.oldStack] [] in
  ∃ nodePoolStacks,
    (ListStacks (reconcileTags n) (world s)).1 = Ok nodePoolStacks ∧
    calls (run (Reconcile n) s).2 =
      calls s ++ (CallListStacks (reconcileTags n), None)
              :: flat_map drainAndDelete
                   (orphanedNodePoolStacks nodePoolStacks (api.NodePools (Cluster n))).
Proof.
  apply (Reconcile_success_calls (W := Mem.World) Example.provisioner
           (Example.live [Example.stackA; Example.oldStack] [])).
  vm_compute. reflexivity.
Defined.

Lemma Reconcile_nothing_to_do_witness :
  let n := Example.provisioner in
  let s := Example.live [Example.stackA] [] in
  (run (Reconcile n) s).1 = Ok tt ∧
  calls (run (Reconcile n) s).2 = calls s ++ [(CallListStacks (reconcileTags n), None)].
Proof.
  apply (Reconcile_nothing_to_do (W := Mem.World) Example.provisioner
           (Example.live [Example.stackA] []) [Example.stackA]).
  - vm_compute. reflexivity.
  - intros stack ->%list_elem_of_singleton. vm_compute. by left.
Defined.

Lemma Reconcile_keeps_desired_stacks_witness :
  let n := Example.provisioner in
  let s := Example.live [Example.stackA; Example.oldStack] [] in
  Forall (λ ev, ev.1 ≠ CallDeleteStack "nodepool-a-aws-123-eu")
         (drop (length (calls s)) (calls (run (Reconcile n) s).2)).
Proof.
  apply Forall_forall.
  apply (Reconcile_keeps_desired_stacks (W := Mem.World) Example.provisioner
           (Example.live [Example.stackA; Example.oldStack] [])
           [Example.stackA; Example.oldStack] Example.stackA).
  - vm_compute. reflexivity.
  - vm_compute. apply NoDup_cons. split; [|apply NoDup_singleton].
    by intros ?%list_elem_of_singleton.
  - by left.
  - vm_compute. by left.
Defined.

(** ** Provisioning one pool: the calls it makes *)

Section Run2.
Context {W : Type}.

Lemma run_bindE_Ok_inv {A B} (p : Proc W (result A)) (f : A → Proc W (result B))
    (s s' : St W) (b : B) :
  run (bindE p f) s = (Ok b, s') →
  ∃ a s1, run p s = (Ok a, s1) ∧ run (f a) s1 = (Ok b, s').
Proof.
  rewrite run_bindE. destruct (run p s) as [[a|e] s1]; cbn [fst snd]; [eauto|done].
Qed.

Lemma stopsAtFailure_nil {A} (r : result A) : stopsAtFailure [] r.
Proof. split; [done|]. by intros a _ ev ?%elem_of_nil. Qed.

Lemma FailStop_Ret {A} (r : result A) : FailStop (W := W) (Ret r).
Proof. intros s. exists []. split; [by rewrite app_nil_r | apply stopsAtFailure_nil]. Qed.

Lemma FailStop_readsOnly {A} (p : Proc W (result A)) : readsOnly p → FailStop p.
Proof.
  intros Hp s. exists []. rewrite Hp.
  split; [by rewrite app_nil_r | apply stopsAtFailure_nil].
Qed.

Lemma FailStop_bindE {A B} (p : Proc W (result A)) (f : A → Proc W (result B)) :
  FailStop p → (∀ a, FailStop (f a)) → FailStop (bindE p f).
Proof.
  intros Hp Hf s. destruct (Hp s) as (evs1 & Hcalls1 & Hstop1 & Hok1).
  rewrite run_bindE. destruct (run p s) as [[a|e] s1]; cbn [fst snd] in *.
  - destruct (Hf a s1) as (evs2 & Hcalls2 & Hstop2 & Hok2).
    exists (evs1 ++ evs2). split; [by rewrite Hcalls2, Hcalls1, <- app_assoc|].
    split.
    + intros i c e Hi. apply lookup_app_Some in Hi as [Hi|[Hlen Hi]].
      * apply list_elem_of_lookup_2, (Hok1 a eq_refl) in Hi. done.
      * destruct (Hstop2 _ c e Hi) as [-> Hlen2]. split; [done|].
        rewrite length_app, Hlen2. lia.
    + intros b Hb ev [Hin|Hin]%elem_of_app; [by apply (Hok1 a)|by apply (Hok2 b)].
  - exists evs1. split; [done|]. split.
    + intros i c e' Hi. destruct (Hstop1 i c e' Hi) as [[= ->] Hlen]. by split.
    + done.
Qed.

Context `{Cloud W}.

Lemma FailStop_callWorld {A} (c : Call) (f : W → result A * W) :
  FailStop (callWorld c f).
Proof.
  intros s. rewrite run_callWorld. cbn [fst snd calls]. eexists. split; [done|].
  split.
  - intros [|[|]] c' e Hi; try done. injection Hi as <- Hout.
    destruct (f (world s)).1; [done|]. by injection Hout as ->.
  - intros a Ha ev ->%list_elem_of_singleton. cbn [snd]. by rewrite Ha.
Qed.

Lemma FailStop_setValue (key v : string) : FailStop (W := W) (setValue key v).
Proof.
  intros s. rewrite run_setValue. exists [].
  split; [by rewrite app_nil_r | apply stopsAtFailure_nil].
Qed.
End Run2.

Section ProvisionCalls.
Context `{Platform} {W : Type} `{Cloud W}.

Lemma FailStop_uploadUserDataToS3 userData bucket :
  FailStop (W := W) (uploadUserDataToS3 userData bucket).
Proof.
  unfold uploadUserDataToS3.
  apply FailStop_bindE; [apply FailStop_callWorld | intros _].
  apply FailStop_bindE; [apply FailStop_callWorld | intros _].
  apply FailStop_Ret.
Qed.

Lemma FailStop_generateNodePoolStackTemplate n nodePool :
  FailStop (W := W) (generateNodePoolStackTemplate n nodePool).
Proof.
  unfold generateNodePoolStackTemplate.
  apply FailStop_bindE.
  { apply FailStop_readsOnly. intros s. by rewrite run_readWorld. }
  intros fi. destruct (negb (IsDir fi)); [apply FailStop_Ret|].
  apply FailStop_bindE; [|intros ud; apply FailStop_readsOnly,
                                    readsOnly_renderTemplate].
  unfold prepareUserData.
  apply FailStop_bindE; [apply FailStop_readsOnly, readsOnly_renderTemplate|].
  intros rendered. destruct (clcToIgnition rendered); [|apply FailStop_Ret].
  apply FailStop_bindE; [apply FailStop_uploadUserDataToS3 | intros uri].
  apply FailStop_Ret.
Qed.

(** A call to the cloud that fails ends the provisioning of the pool: it is
    the last call made, and [provisionNodePool] returns its error as it is.
    So a failed upload is not followed by [applyStack], and a stack whose
    [applyStack] failed is not waited for. A provisioning that returns nil
    has seen no call fail. *)
Theorem provisionNodePool_stops_at_first_failure (n : AWSNodePoolProvisioner)
    (nodePool : api.NodePool) (s : St W) :
  let res := run (provisionNodePool n nodePool) s in
  ∃ evs,
    calls res.2 = calls s ++ evs ∧
    (∀ i c e, evs !! i = Some (c, Some e) → res.1 = Err e ∧ length evs = S i) ∧
    (res.1 = Ok tt → ∀ ev, ev ∈ evs → ev.2 = None).
Proof.
  assert (FailStop (provisionNodePool n nodePool)) as Hstop.
  { unfold provisionNodePool.
    apply FailStop_bindE; [apply FailStop_setValue | intros _].
    apply FailStop_bindE.
    { unfold resolveSpotPrice.
      repeat (match goal with
              | |- context [if ?b then _ else _] => destruct b
              | |- context [match ?m !! ?k with _ => _ end] => destruct (m !! k)
              end);
        first [apply FailStop_Ret | apply FailStop_setValue]. }
    intros _.
    apply FailStop_bindE; [apply FailStop_generateNodePoolStackTemplate|].
    intros template. cbv zeta.
    apply FailStop_bindE; [apply FailStop_callWorld | intros _].
    apply FailStop_bindE; [apply FailStop_callWorld | intros _].
    apply FailStop_Ret. }
  cbv zeta. destruct (Hstop s) as (evs & Hcalls & Hfail & Hok).
  exists evs. split_and!; [done..|]. intros Hres. by apply (Hok tt).
Qed.

Lemma uploadUserDataToS3_Ok_calls (userData bucketName uri : string) (s s1 : St W) :
  run (uploadUserDataToS3 userData bucketName) s = (Ok uri, s1) →
  let objectName := hex_EncodeToString (sha512_Sum userData) +:+ ".userdata" in
  uri = "s3://" +:+ bucketName +:+ "/" +:+ objectName ∧
  calls s1 = calls s ++ [ (CallCreateS3Bucket bucketName, None);
                          (CallUpload bucketName objectName userData, None) ].
Proof.
  unfold uploadUserDataToS3. cbv zeta.
  intros (a & sa & Hcreate & Hrest)%run_bindE_Ok_inv.
  apply run_bindE_Ok_inv in Hrest as (b & sb & Hupload & Hret).
  apply callWorld_inv in Hcreate as (_ & Hcalls1 & _).
  apply callWorld_inv in Hupload as (_ & Hcalls2 & _).
  cbn [run] in Hret. injection Hret as <- <-. split; [done|].
  by rewrite Hcalls2, Hcalls1, <- app_assoc.
Qed.

Lemma prepareUserData_Ok_inv (n : AWSNodePoolProvisioner) (clcPath userData : string)
    (config : gmap string string → template.Value) (s s1 : St W) :
  run (prepareUserData n clcPath config) s = (Ok userData, s1) →
  ∃ rendered ignCfg,
    (run (renderTemplate clcPath config) s).1 = Ok rendered ∧
    clcToIgnition rendered = Ok ignCfg ∧
    let objectName := hex_EncodeToString (sha512_Sum ignCfg) +:+ ".userdata" in
    userData = base64_EncodeToString
                 (ignitionBaseTemplate ("s3://" +:+ bucketName n +:+ "/" +:+ objectName)) ∧
    calls s1 = calls s ++ [ (CallCreateS3Bucket (bucketName n), None);
                            (CallUpload (bucketName n) objectName ignCfg, None) ].
Proof.
  unfold prepareUserData.
  intros (rendered & sa & Hrender & Hrest)%run_bindE_Ok_inv.
  pose proof (readsOnly_renderTemplate clcPath config s) as Hsame.
  rewrite Hrender in Hsame. cbn [snd] in Hsame. subst sa.
  destruct (clcToIgnition rendered) as [ignCfg|err] eqn:Hconvert; [|done].
  apply run_bindE_Ok_inv in Hrest as (uri & sb & Hupload & Hret).
  apply uploadUserDataToS3_Ok_calls in Hupload as [-> Hcalls].
  cbn [run] in Hret. injection Hret as <- <-.
  exists rendered, ignCfg. by rewrite Hrender.
Qed.

(** The user data that [prepareUserData] returns is the base64 of the fixed
    ignition document around the URI of the uploaded configuration: it is
    made from the bucket and the digest of the converted configuration, and
    the configuration itself is what was uploaded, in two calls. *)
Theorem prepareUserData_result (n : AWSNodePoolProvisioner) (clcPath userData : string)
    (config : gmap string string → template.Value) (s s1 : St W) :
  run (prepareUserData n clcPath config) s = (Ok userData, s1) →
  ∃ rendered ignCfg,
    (run (renderTemplate clcPath config) s).1 = Ok rendered ∧
    clcToIgnition rendered = Ok ignCfg ∧
    let objectName := hex_EncodeToString (sha512_Sum ignCfg) +:+ ".userdata" in
    userData = base64_EncodeToString
                 (ignitionBaseTemplate ("s3://" +:+ bucketName n +:+ "/" +:+ objectName)) ∧
    calls s1 = calls s ++ [ (CallCreateS3Bucket (bucketName n), None);
                            (CallUpload (bucketName n) objectName ignCfg, None) ].
Proof. apply prepareUserData_Ok_inv. Qed.

(** When the converter rejects the rendered configuration,
    [prepareUserData] returns an error that names the file and the
    converter's reason, and nothing has been uploaded. *)
Theorem prepareUserData_conversion_failure (n : AWSNodePoolProvisioner)
    (clcPath rendered : string) (err : error)
    (config : gmap string string → template.Value) (s : St W) :
  (run (renderTemplate clcPath config) s).1 = Ok rendered →
  clcToIgnition rendered = Err err →
  run (prepareUserData n clcPath config) s
  = (Err (fmt_Errorf ("failed to parse config " +:+ clcPath +:+ ": " +:+ Error err)), s).
Proof.
  intros Hrender Hconvert. unfold prepareUserData.
  rewrite run_bindE, Hrender, readsOnly_renderTemplate, Hconvert. done.
Qed.

(** A provisioning that returns nil has made four calls, in this order:
    it has ensured the bucket; it has uploaded, under the key of its digest,
    the configuration that [clcToIgnition] made of the user data template
    [<base>/<profile>/userdata.clc.yaml], rendered on the map with the price
    set; it has applied the stack [nodepool-<pool>-<cluster>] with the five
    tags of the pool and with the template [<base>/<profile>/stack.yaml],
    rendered with the user data that points to the uploaded object; and it
    has waited for that stack. *)
Theorem provisionNodePool_success_calls (n : AWSNodePoolProvisioner)
    (nodePool : api.NodePool) (s s1 : St W) :
  run (provisionNodePool n nodePool) s = (Ok tt, s1) →
  let nodePoolProfilesPath := path_Join [cfgBaseDir n; api.Profile nodePool] in
  let userDataPath := path_Join [nodePoolProfilesPath; userDataFileName] in
  let stackPath := path_Join [nodePoolProfilesPath; stackFileName] in
  let priced :=
    (run (resolveSpotPrice n nodePool) (run (setValue "spot_price" "") s).2).2 in
  let uploaded :=
    (run (prepareUserData n userDataPath (userDataParams n nodePool)) priced).2 in
  ∃ rendered ignCfg template,
    (run (renderTemplate userDataPath (userDataParams n nodePool)) priced).1
      = Ok rendered ∧
    clcToIgnition rendered = Ok ignCfg ∧
    let objectName := hex_EncodeToString (sha512_Sum ignCfg) +:+ ".userdata" in
    let userData :=
      base64_EncodeToString
        (ignitionBaseTemplate ("s3://" +:+ bucketName n +:+ "/" +:+ objectName)) in
    (run (renderTemplate stackPath (stackParams n nodePool userData)) uploaded).1
      = Ok template ∧
    calls s1 =
      calls s ++
      [ (CallCreateS3Bucket (bucketName n), None);
        (CallUpload (bucketName n) objectName ignCfg, None);
        (CallApplyStack (stackNameOf n nodePool) template
           (nodePoolStackTags (api.ID (Cluster n)) nodePool), None);
        (CallWaitForStack (stackNameOf n nodePool), None) ].
Proof.
  unfold provisionNodePool.
  intros (? & sa & Hset & Hrest)%run_bindE_Ok_inv.
  apply run_bindE_Ok_inv in Hrest as (? & sb & Hprice & Hrest).
  cbv zeta. rewrite Hset. cbn [snd]. rewrite Hprice. cbn [snd].
  rewrite run_setValue in Hset. injection Hset as _ <-.
  assert (calls sb = calls s) as Hcalls0.
  { revert Hprice. unfold resolveSpotPrice.
    repeat (match goal with
            | |- context [if ?b then _ else _] => destruct b
            | |- context [match ?m !! ?k with _ => _ end] => destruct (m !! k)
            end);
      rewrite ?run_setValue; cbn [run]; intros Heq; by inversion Heq. }
  apply run_bindE_Ok_inv in Hrest as (template & sc & Hgen & Hrest).
  cbv zeta in Hrest.
  apply run_bindE_Ok_inv in Hrest as (? & sd & Happly & Hrest).
  apply run_bindE_Ok_inv in Hrest as (? & se & Hwait & Hret).
  cbn [run] in Hret. injection Hret as <-.
  apply callWorld_inv in Happly as (_ & Hcalls3 & _).
  apply callWorld_inv in Hwait as (_ & Hcalls4 & _).
  unfold generateNodePoolStackTemplate in Hgen.
  apply run_bindE_Ok_inv in Hgen as (fi & sb' & Hstat & Hgen).
  rewrite run_readWorld in Hstat. injection Hstat as _ <-.
  destruct (negb (IsDir fi)); [done|].
  apply run_bindE_Ok_inv in Hgen as (ud & sb2 & Hprepare & Hrender).
  rewrite Hprepare. cbn [snd].
  apply prepareUserData_Ok_inv in Hprepare
    as (rendered & ignCfg & Hrendered & Hconvert & Hud & Hcalls2).
  cbv zeta in Hud. subst ud.
  pose proof (readsOnly_renderTemplate
                (path_Join [path_Join [cfgBaseDir n; api.Profile nodePool];
                            stackFileName])
                (stackParams n nodePool
                   (base64_EncodeToString
                      (ignitionBaseTemplate
                         ("s3://" +:+ bucketName n +:+ "/"
                          +:+ (hex_EncodeToString (sha512_Sum ignCfg) +:+ ".userdata")))))
                sb2) as Hsame.
  rewrite Hrender in Hsame. cbn [snd] in Hsame. subst sc.
  exists rendered, ignCfg, template.
  split_and!; [done|done|by rewrite Hrender|].
  rewrite Hcalls4, Hcalls3, Hcalls2, Hcalls0. cbn [outcome].
  by rewrite <- !app_assoc.
Qed.
End ProvisionCalls.

Lemma prepareUserData_result_witness :
  let n := Example.provisioner in
  let clcPath := "/cfg/worker/userdata.clc.yaml" in
  let config := userDataParams n Example.poolA in
  let res := run (prepareUserData n clcPath config) Example.start in
  ∃ rendered ignCfg,
    (run (renderTemplate clcPath config) Example.start).1 = Ok rendered ∧
    clcToIgnition rendered = Ok ignCfg ∧
    let objectName := hex_EncodeToString (sha512_Sum ignCfg) +:+ ".userdata" in
    "source=s3://bucket/706f6f6c2061.userdata"
      = base64_EncodeToString
          (ignitionBaseTemplate ("s3://" +:+ bucketName n +:+ "/" +:+ objectName)) ∧
    calls res.2 = calls Example.start
                  ++ [ (CallCreateS3Bucket (bucketName n), None);
                       (CallUpload (bucketName n) objectName ignCfg, None) ].
Proof.
  apply (prepareUserData_result (W := Mem.World) Example.provisioner
           "/cfg/worker/userdata.clc.yaml" "source=s3://bucket/706f6f6c2061.userdata"
           (userDataParams Example.provisioner Example.poolA) Example.start).
  vm_compute. reflexivity.
Defined.

Lemma prepareUserData_conversion_failure_witness :
  run (prepareUserData (H := rejectingPlatform) Example.provisioner
         "/cfg/worker/userdata.clc.yaml"
         (userDataParams Example.provisioner Example.poolA))
      Example.start
  = (Err (fmt_Errorf
       "failed to parse config /cfg/worker/userdata.clc.yaml: invalid configuration"),
     Example.start).
Proof.
  apply (prepareUserData_conversion_failure (H := rejectingPlatform) (W := Mem.World)
           Example.provisioner "/cfg/worker/userdata.clc.yaml" "pool a"
           (errorString "invalid configuration")).
  - vm_compute. reflexivity.
  - reflexivity.
Defined.

Lemma provisionNodePool_success_calls_witness :
  let n := Example.provisioner in
  let s1 := (run (provisionNodePool n Example.poolB) Example.start).2 in
  calls s1 =
    calls Example.start ++
    [ (CallCreateS3Bucket "bucket", None);
      (CallUpload "bucket" "706f6f6c2062.userdata" "pool b", None);
      (CallApplyStack "nodepool-b-aws-123-eu"
         "price=;userdata=source=s3://bucket/706f6f6c2062.userdata"
         (nodePoolStackTags "aws:123:eu" Example.poolB), None);
      (CallWaitForStack "nodepool-b-aws-123-eu", None) ].
Proof.
  intros n s1.
  destruct (provisionNodePool_success_calls (W := Mem.World) n Example.poolB
              Example.start s1)
    as (rendered & ignCfg & template & Hrendered & Hconvert & Htemplate & Hcalls).
  - vm_compute. reflexivity.
  - vm_compute in Hrendered. injection Hrendered as <-.
    vm_compute in Hconvert. injection Hconvert as <-.
    vm_compute in Htemplate. injection Htemplate as <-.
    rewrite Hcalls. vm_compute. reflexivity.
Defined.

(** ** Stack names and object keys *)

Lemma length_append (s t : string) :
  String.length (s +:+ t) = String.length s + String.length t.
Proof. induction s as [|c s IH]; [done|]. rewrite append_cons. cbn. by rewrite IH. Qed.

Lemma append_inj_r (s s' t : string) : s +:+ t = s' +:+ t → s = s'.
Proof.
  revert s'. induction s as [|c s IH]; intros [|c' s'] Heq; [done| | |].
  - apply (f_equal String.length) in Heq.
    rewrite ?append_cons in Heq. cbn [String.length] in Heq.
    rewrite !length_append in Heq. cbn [String.length] in Heq. lia.
  - apply (f_equal String.length) in Heq.
    rewrite ?append_cons in Heq. cbn [String.length] in Heq.
    rewrite !length_append in Heq. cbn [String.length] in Heq. lia.
  - rewrite !append_cons in Heq. injection Heq as -> Heq. by rewrite (IH s').
Qed.

Lemma strings_Replace1_length (s : string) (old new : ascii) :
  String.length (strings_Replace1 s old new) = String.length s.
Proof. induction s as [|c s IH]; [done|]. cbn. by rewrite IH. Qed.

Lemma strings_Replace1_gone (s : string) (old new : ascii) :
  old ≠ new → ¬ Contains (strings_Replace1 s old new) (String old "").
Proof.
  intros Hne (before & after & Heq). revert before Heq.
  induction s as [|c s IH]; intros [|b before] Heq; try done.
  - cbn [strings_Replace1] in Heq. rewrite append_cons in Heq.
    injection Heq as Hhead _.
    destruct (Ascii.eqb_spec c old) as [->|Hc]; congruence.
  - cbn [strings_Replace1] in Heq. rewrite append_cons in Heq.
    injection Heq as _ Htail. by apply (IH before).
Qed.

(** The stack name of a pool is [nodepool-<pool>-<id>] where [<id>] is the
    cluster's ID with every colon replaced: that part has the length of the
    ID and holds no colon. The pool name goes in as it is, and within one
    cluster pools with different names get different stack names. *)
Theorem stackNameOf_spec (n : AWSNodePoolProvisioner) (nodePool : api.NodePool) :
  (∃ suffix,
     stackNameOf n nodePool = "nodepool-" +:+ api.Name nodePool +:+ "-" +:+ suffix ∧
     String.length suffix = String.length (api.ID (Cluster n)) ∧
     ¬ Contains suffix ":") ∧
  (∀ nodePool', stackNameOf n nodePool = stackNameOf n nodePool' →
                api.Name nodePool = api.Name nodePool').
Proof.
  split.
  - exists (strings_Replace1 (api.ID (Cluster n)) ":" "-"). split_and!; [done| |].
    + apply strings_Replace1_length.
    + by apply strings_Replace1_gone.
  - intros nodePool' Heq. unfold stackNameOf in Heq.
    apply (inj (String.append "nodepool-")) in Heq.
    by apply append_inj_r in Heq.
Qed.

Lemma hex_byte_inv (c : ascii) :
  ascii_of_N (16 * fromHexChar (hextable (N.shiftr (N_of_ascii c) 4))
              + fromHexChar (hextable (N.land (N_of_ascii c) 15))) = c.
Proof. by destruct c as [[] [] [] [] [] [] [] []]. Qed.

Lemma hex_EncodeToString_inj (s t : string) :
  hex_EncodeToString s = hex_EncodeToString t → s = t.
Proof.
  revert t. induction s as [|c s IH]; intros [|c' t] Heq; try done.
  cbn [hex_EncodeToString] in Heq. injection Heq as Hhi Hlo Hrest.
  rewrite <- (hex_byte_inv c), <- (hex_byte_inv c'), Hhi, Hlo.
  by rewrite (IH t).
Qed.

Section ContentAddress.
Context `{Platform} {W : Type} `{Cloud W}.

(** Two successful publishes to one bucket return the same URI exactly when
    the digests of their payloads are equal: what is stored under one key is
    told apart by nothing but the digest. *)
Theorem publish_same_uri_iff_same_digest (userData userData' bucketName : string)
    (uri uri' : string) (s s1 t t1 : St W) :
  run (uploadUserDataToS3 userData bucketName) s = (Ok uri, s1) →
  run (uploadUserDataToS3 userData' bucketName) t = (Ok uri', t1) →
  (uri = uri' ↔ sha512_Sum userData = sha512_Sum userData').
Proof.
  intros [-> _]%uploadUserDataToS3_Ok_calls [-> _]%uploadUserDataToS3_Ok_calls.
  split; [|by intros ->].
  intros Heq.
  apply (inj (String.append "s3://")), (inj (String.append bucketName)),
        (inj (String.append "/")) in Heq.
  by apply append_inj_r, hex_EncodeToString_inj in Heq.
Qed.
End ContentAddress.

Lemma publish_same_uri_iff_same_digest_witness :
  "s3://bucket/4142.userdata" = "s3://bucket/4143.userdata" ↔
  sha512_Sum "AB" = sha512_Sum "AC".
Proof.
  apply (publish_same_uri_iff_same_digest (W := Mem.World) "AB" "AC" "bucket"
           "s3://bucket/4142.userdata" "s3://bucket/4143.userdata"
           Example.start (run (uploadUserDataToS3 "AB" "bucket") Example.start).2
           Example.start (run (uploadUserDataToS3 "AC" "bucket") Example.start).2);
    vm_compute; reflexivity.
Defined.

(** ** Provision: what it leaves alone *)

Section KeepsKey.
Context {W : Type}.

Lemma keepsKey_bind {A B} key (p : Proc W A) (f : A → Proc W B) :
  keepsKey key p → (∀ a, keepsKey key (f a)) → keepsKey key (bind p f).
Proof.
  intros Hp Hf. induction p as [a|C act k IH]; [apply Hf|].
  destruct Hp as [Hact Hk]. split; [done|]. intros b. by apply IH.
Qed.

Lemma keepsKey_bindE {A B} key (p : Proc W (result A))
    (f : A → Proc W (result B)) :
  keepsKey key p → (∀ a, keepsKey key (f a)) → keepsKey key (bindE p f).
Proof.
  intros Hp Hf. apply keepsKey_bind; [done|]. by intros [a|e].
Qed.

Lemma keepsKey_run {A} key (p : Proc W A) (s : St W) :
  keepsKey key p → values (run p s).2 !! key = values s !! key.
Proof.
  revert s. induction p as [a|C act k IH]; intros s Hp; [done|].
  destruct Hp as [Hact Hk]. cbn [run].
  specialize (Hact s). destruct (act s) as [b s']. by rewrite IH.
Qed.

Lemma keepsKey_goStep key (g : Goroutine (W := W)) (s : St W) errorsc :
  goroutineKeepsKey key g →
  values (goStep g s errorsc).1.2 !! key = values s !! key ∧
  goroutineKeepsKey key (goStep g s errorsc).1.1.
Proof.
  destruct g as [nodePool [err|C act k]|nodePool err]; cbn [goStep]; [done| |done].
  intros [Hact Hk]. specialize (Hact s). destruct (act s) as [b s']. split; [done|].
  apply Hk.
Qed.

Lemma keepsKey_interleave key sched (gs : list (Goroutine (W := W))) (s : St W)
    errorsc :
  Forall (goroutineKeepsKey key) gs →
  values (interleave sched gs s errorsc).1.2 !! key = values s !! key ∧
  Forall (goroutineKeepsKey key) (interleave sched gs s errorsc).1.1.
Proof.
  revert gs s errorsc. induction sched as [|i sched IH]; intros gs s errorsc Hgs;
    [done|].
  cbn [interleave]. destruct (gs !! i) as [g|] eqn:Hi; [|by apply IH].
  pose proof (keepsKey_goStep key g s errorsc) as Hstep.
  destruct (goStep g s errorsc) as [[g' s'] errorsc']. cbn [fst snd] in Hstep.
  destruct Hstep as [Hvalues Hg']; [by eapply Forall_lookup_1|].
  destruct (IH (<[i := g']> gs) s' errorsc') as [Hvalues' Hgs'].
  { by apply Forall_insert. }
  split; [by rewrite Hvalues', Hvalues | done].
Qed.

Lemma keepsKey_finishAll key (todo finished : list (Goroutine (W := W)))
    (s : St W) errorsc :
  Forall (goroutineKeepsKey key) todo →
  values (finishAll todo finished s errorsc).1.2 !! key = values s !! key.
Proof.
  revert finished s errorsc.
  induction todo as [|g todo IH]; intros finished s errorsc Htodo; [done|].
  apply Forall_cons in Htodo as [Hg Htodo]. cbn [finishAll].
  destruct g as [nodePool p|nodePool err]; cbn [goFinish].
  - pose proof (keepsKey_run key p s Hg) as Hrun.
    destruct (run p s) as [err s']. cbn [snd] in Hrun. by rewrite IH.
  - by rewrite IH.
Qed.
End KeepsKey.

Section ProvisionFrame.
Context `{Platform} {W : Type} `{Cloud W}.

Lemma keepsKey_callWorld {A} key (c : Call) (f : W → result A * W) :
  keepsKey key (callWorld c f).
Proof. split; [|done]. intros s. by destruct (f (world s)). Qed.

Lemma keepsKey_readWorld {A} key (f : W → result A) : keepsKey key (readWorld f).
Proof. by split. Qed.

Lemma keepsKey_readValues {A} key (f : gmap string string → result A) :
  keepsKey (W := W) key (readValues f).
Proof. by split. Qed.

Lemma keepsKey_setValue key key' v :
  key' ≠ key → keepsKey (W := W) key (setValue key' v).
Proof. intros Hne. split; [|done]. intros s. cbn. by rewrite lookup_insert_ne. Qed.

Lemma keepsKey_renderTemplate key templateFile data :
  keepsKey (W := W) key (renderTemplate templateFile data).
Proof.
  unfold renderTemplate.
  apply keepsKey_bindE; [apply keepsKey_readWorld | intros content].
  apply keepsKey_bindE; [done | intros t]. apply keepsKey_readValues.
Qed.

Lemma keepsKey_provisionNodePool key n nodePool :
  key ≠ "spot_price" → keepsKey (W := W) key (provisionNodePool n nodePool).
Proof.
  intros Hne. unfold provisionNodePool.
  apply keepsKey_bindE; [by apply keepsKey_setValue | intros _].
  apply keepsKey_bindE.
  { unfold resolveSpotPrice.
    repeat (match goal with
            | |- context [if ?b then _ else _] => destruct b
            | |- context [match ?m !! ?k with _ => _ end] => destruct (m !! k)
            end); first [done | by apply keepsKey_setValue]. }
  intros _. apply keepsKey_bindE.
  { unfold generateNodePoolStackTemplate.
    apply keepsKey_bindE; [apply keepsKey_readWorld | intros fi].
    destruct (negb (IsDir fi)); [done|].
    apply keepsKey_bindE; [|intros ud; apply keepsKey_renderTemplate].
    unfold prepareUserData.
    apply keepsKey_bindE; [apply keepsKey_renderTemplate | intros rendered].
    destruct (clcToIgnition rendered); [|done].
    apply keepsKey_bindE; [|done]. unfold uploadUserDataToS3.
    apply keepsKey_bindE; [apply keepsKey_callWorld | intros _].
    apply keepsKey_bindE; [apply keepsKey_callWorld | done]. }
  intros template. cbv zeta.
  apply keepsKey_bindE; [apply keepsKey_callWorld | intros _].
  apply keepsKey_bindE; [apply keepsKey_callWorld | done].
Qed.

(** Under every schedule [Provision] leaves every key of the caller's map
    other than [spot_price] as it was: the goroutines write that one key and
    no other, and remove none. *)
Theorem Provision_touches_spot_price_only (n : AWSNodePoolProvisioner)
    (sched : list nat) (s : St W) (key : string) :
  key ≠ "spot_price" →
  values (Provision n sched s).1.2 !! key = values s !! key.
Proof.
  intros Hne. unfold Provision.
  set (nodePools := getNonLegacyNodePools (Cluster n)).
  assert (Forall (goroutineKeepsKey key) (launch n nodePools)) as Hlaunch.
  { unfold launch. induction nodePools as [|np rest IH]; [done|].
    cbn [map]. apply Forall_cons. split; [|done].
    by apply keepsKey_provisionNodePool. }
  pose proof (keepsKey_interleave key sched _ s [] Hlaunch) as [Hvalues Hgs].
  destruct (interleave sched (launch n nodePools) s []) as [[gs s1] errorsc1].
  cbn [fst snd] in Hvalues, Hgs.
  pose proof (keepsKey_finishAll key gs [] s1 errorsc1 Hgs) as Hvalues'.
  destruct (finishAll gs [] s1 errorsc1) as [[gs' s2] errorsc2].
  cbn [fst snd] in *. by rewrite Hvalues', Hvalues.
Qed.

Lemma interleave_nil (sched : list nat) (s : St W) errorsc :
  interleave sched [] s errorsc = ([], s, errorsc).
Proof. induction sched as [|i sched IH]; [done|]. apply IH. Qed.

(** Without target pools [Provision] returns nil at once, under every
    schedule: it makes no call and leaves the map as it is. *)
Theorem Provision_no_pools (n : AWSNodePoolProvisioner) (sched : list nat)
    (s : St W) :
  getNonLegacyNodePools (Cluster n) = [] →
  Provision n sched s = (Some (Ok tt), s, []).
Proof.
  intros Hnone. unfold Provision. rewrite Hnone. cbn [launch map].
  by rewrite interleave_nil.
Qed.
End ProvisionFrame.

Lemma Provision_touches_spot_price_only_witness :
  let s : St Mem.World :=
    mkSt {[ "cluster_name" := "prod" ]} (Mem.mkWorld Example.files ∅ [] []) [] in
  values (Provision Example.provisioner [1; 1; 0; 0; 0] s).1.2 !! "cluster_name"
  = values s !! "cluster_name".
Proof.
  intros s.
  apply (Provision_touches_spot_price_only (W := Mem.World)
           Example.provisioner [1; 1; 0; 0; 0] s "cluster_name").
  discriminate.
Defined.

Lemma Provision_no_pools_witness :
  Provision emptyProvisioner [0; 1] Example.start = (Some (Ok tt), Example.start, []).
Proof.
  apply (Provision_no_pools (W := Mem.World) emptyProvisioner [0; 1] Example.start).
  reflexivity.
Defined.

(** ** Rendering: the errors it passes on *)

Section RenderErrors.
Context `{Platform} {W : Type} `{Cloud W}.

(** [renderTemplate] returns the error of [ioutil.ReadFile] when the file
    cannot be read and the error of [Parse] when its text is no template,
    each as it is; and whatever it returns, it has changed neither the
    shared map nor the world and has made no call. *)
Theorem renderTemplate_errors (templateFile : string)
    (data : gmap string string → template.Value) (s : St W) :
  (∀ e, ioutil_ReadFile templateFile (world s) = Err e →
        (run (renderTemplate templateFile data) s).1 = Err e) ∧
  (∀ content e,
     ioutil_ReadFile templateFile (world s) = Ok content →
     template_Parse templateFile content = Err e →
     (run (renderTemplate templateFile data) s).1 = Err e) ∧
  (run (renderTemplate templateFile data) s).2 = s.
Proof.
  rewrite renderTemplate_run. cbn [fst snd]. split_and!; [| |done].
  - by intros e ->.
  - by intros content e -> ->.
Qed.
End RenderErrors.

Lemma renderTemplate_errors_witness :
  let files : gmap string Mem.File :=
    {[ "/cfg/worker/stack.yaml" := Mem.Regular "price={{.Values.spot_price" ]} in
  let s : St Mem.World := mkSt ∅ (Mem.mkWorld files ∅ [] []) [] in
  let data := stackParams Example.provisioner Example.poolA "" in
  (run (renderTemplate "/cfg/worker/userdata.clc.yaml" data) s).1
    = Err (PathError "open" "/cfg/worker/userdata.clc.yaml" ENOENT) ∧
  (run (renderTemplate "/cfg/worker/stack.yaml" data) s).1
    = Err (errorString "unclosed action").
Proof.
  intros files s data. split.
  - apply (proj1 (renderTemplate_errors (W := Mem.World)
                    "/cfg/worker/userdata.clc.yaml" data s)).
    vm_compute. reflexivity.
  - apply (proj1 (proj2 (renderTemplate_errors (W := Mem.World)
                           "/cfg/worker/stack.yaml" data s))
             "price={{.Values.spot_price").
    + vm_compute. reflexivity.
    + vm_compute. reflexivity.
Defined.
